(** * Songbook: the local data layer and the playlist / library state

    A shallow embedding of the stateful core of the sheet-music reader:
    the IndexedDB wrapper ([db.ts]), the handlers of the [App] component
    ([App.tsx]), the create handler of [PlaylistView] and the derived
    [hydratedPlaylists] view, followed by the properties of that core.

    Conventions of the embedding.
    - A JavaScript string is a [string] holding its UTF-8 bytes.
    - React state is a record; a handler is a computation in the monad [M]
      that reads the state, updates it, may throw, and logs what the user
      sees ([alert], [console.error]).  A handler runs to completion before
      the next one starts (one mutator, calls applied in call order).
    - What the environment decides is an argument of the handler: the clock
      ([Date.now()]), the random draw ([Math.random()]), the answer to
      [window.confirm], the chosen file and what pdf.js makes of it.
    - The object stores of IndexedDB are finite maps keyed by [id]; their
      operations are taken to succeed. *)

From Stdlib Require Import ZArith QArith Qminmax Ascii Decimal DecimalString
  DecimalPos DecimalZ.
From stdpp Require Import gmap strings list sorting.

(** ** JavaScript string built-ins used by the code *)

(** [`${n}`] for an integral number: plain decimal digits, with a leading
    minus sign below zero. *)
Definition Number_toString (n : Z) : string :=
  NilEmpty.string_of_int (Z.to_int n).

(** [String.prototype.toLowerCase] on the ASCII letters; the bytes of other
    characters are kept. *)
Definition lower_ascii (c : ascii) : ascii :=
  let n := nat_of_ascii c in
  if (65 <=? n)%nat && (n <=? 90)%nat then ascii_of_nat (n + 32) else c.

Fixpoint toLowerCase (s : string) : string :=
  match s with
  | "" => ""
  | String c s' => String (lower_ascii c) (toLowerCase s')
  end.

(** [s.startsWith(p)] and [s.endsWith(p)]. *)
Definition startsWith (s p : string) : bool := String.prefix p s.
Definition endsWith (s p : string) : bool :=
  String.prefix (String.rev p) (String.rev s).

(** [s.includes(sub)]: [sub] occurs somewhere in [s]. *)
Fixpoint includes (s sub : string) : bool :=
  startsWith s sub ||
  match s with
  | "" => false
  | String _ s' => includes s' sub
  end.

(** UTF-8 encoding of a code point of the Basic Multilingual Plane. *)
Definition byte (n : N) : ascii := ascii_of_N n.
Definition utf8 (cp : N) : string :=
  if (cp <? 128)%N then String (byte cp) ""
  else if (cp <? 2048)%N then
    String (byte (192 + cp / 64)) (String (byte (128 + cp mod 64)) "")
  else
    String (byte (224 + cp / 4096))
      (String (byte (128 + (cp / 64) mod 64))
         (String (byte (128 + cp mod 64)) "")).

(** The code points [trim] removes: ECMAScript's WhiteSpace (TAB, VT, FF,
    SP, NBSP, ZWNBSP and the space separators) and LineTerminator (LF, CR,
    LS, PS). *)
Definition whiteSpaceCodePoints : list N :=
  [9; 10; 11; 12; 13; 32; 160; 5760;
   8192; 8193; 8194; 8195; 8196; 8197; 8198; 8199; 8200; 8201; 8202;
   8232; 8233; 8239; 8287; 12288; 65279]%N.

Definition whiteSpace : list string := utf8 <$> whiteSpaceCodePoints.

(** [dropPrefix p s] is the rest of [s] after the prefix [p], if [s] starts
    with it. *)
Fixpoint dropPrefix (p s : string) : option string :=
  match p, s with
  | "", _ => Some s
  | String a p', String b s' =>
      if Ascii.eqb a b then dropPrefix p' s' else None
  | String _ _, "" => None
  end.

(** One white-space character taken off the front (resp. the back, on the
    reversed string). *)
Fixpoint dropWhiteSpace (ws : list string) (s : string) : option string :=
  match ws with
  | [] => None
  | w :: ws' =>
      match dropPrefix w s with
      | Some rest => Some rest
      | None => dropWhiteSpace ws' s
      end
  end.

(** Leading white space removed; every round removes at least one byte, so
    [String.length s] rounds are enough. *)
Fixpoint trimLoop (ws : list string) (fuel : nat) (s : string) : string :=
  match fuel with
  | O => s
  | S fuel' =>
      match dropWhiteSpace ws s with
      | Some s' => trimLoop ws fuel' s'
      | None => s
      end
  end.

Definition trimStart (s : string) : string :=
  trimLoop whiteSpace (String.length s) s.

Definition trimEnd (s : string) : string :=
  String.rev
    (trimLoop (String.rev <$> whiteSpace) (String.length s) (String.rev s)).

(** [String.prototype.trim]. *)
Definition trim (s : string) : string := trimEnd (trimStart s).

(** A string used as a condition: the empty string is falsy. *)
Definition truthy (s : string) : bool :=
  match s with "" => false | _ => true end.

(** [name.replace(/\.pdf$/i, '')]: the pattern matches only at the end of
    the string, its letters in either case; the match is replaced by the
    empty string and a string that does not match is returned as it is. *)
Definition replace_pdf_suffix (name : string) : string :=
  match String.rev name with
  | String f (String d (String p (String dot rest))) =>
      if Ascii.eqb dot "." && Ascii.eqb (lower_ascii p) "p"
         && Ascii.eqb (lower_ascii d) "d" && Ascii.eqb (lower_ascii f) "f"
      then String.rev rest
      else name
  | _ => name
  end.

(** ** Data model ([types.ts]) *)

Module SheetMusic.
Record t : Type := mk {
  id : string;
  name : string;
  pages : list string   (* image data URLs, one per page of the PDF *)
}.
End SheetMusic.

Module Playlist.
Record t : Type := mk {
  id : string;
  name : string;
  itemIds : list string (* SheetMusic ids *)
}.
End Playlist.

Module HydratedPlaylist.
Record t : Type := mk {
  id : string;
  name : string;
  items : list SheetMusic.t
}.
End HydratedPlaylist.

(** ** The database ([db.ts])

    Two object stores with key path [id].  [put] inserts or overwrites the
    record stored under the record's id, [delete] removes a key (nothing
    happens when it is absent) and [getAll] lists the records by ascending
    key. *)
Module DB.
Record t : Type := mk {
  sheetMusic : gmap string SheetMusic.t;
  playlists : gmap string Playlist.t
}.

Definition empty : t := mk ∅ ∅.

Definition byKey {V} (kv1 kv2 : string * V) : Prop :=
  String.le kv1.1 kv2.1.

Definition getAll {V} (store : gmap string V) : list V :=
  (merge_sort byKey (map_to_list store)).*2.

Definition saveSheetMusic (music : SheetMusic.t) (db : t) : t :=
  mk (<[SheetMusic.id music := music]> (sheetMusic db)) (playlists db).

Definition getAllSheetMusic (db : t) : list SheetMusic.t :=
  getAll (sheetMusic db).

Definition deleteSheetMusic (id : string) (db : t) : t :=
  mk (delete id (sheetMusic db)) (playlists db).

Definition savePlaylist (playlist : Playlist.t) (db : t) : t :=
  mk (sheetMusic db) (<[Playlist.id playlist := playlist]> (playlists db)).

Definition getAllPlaylists (db : t) : list Playlist.t :=
  getAll (playlists db).

Definition deletePlaylist (id : string) (db : t) : t :=
  mk (sheetMusic db) (delete id (playlists db)).
End DB.

(** ** The state of the [App] component and the world around it *)

Inductive View : Type := playlistsView | viewerView.

Record AppState : Type := mkApp {
  view : View;
  currentFile : option SheetMusic.t;
  allMusic : list SheetMusic.t;
  playlists : list Playlist.t;
  isModalOpen : bool;
  isLoading : bool;
  loadingMessage : string
}.

(** The state a freshly mounted [App] starts from. *)
Definition initialApp : AppState :=
  mkApp playlistsView None [] [] false true "Loading your music library...".

Record World : Type := mkWorld {
  app : AppState;
  idb : DB.t
}.

(** What a handler shows to the user or writes to the console. *)
Inductive Event : Type :=
  | Alert (message : string)
  | ConsoleError (message reason : string)
  | ExitFullscreen.

(** ** Handlers as computations

    A computation returns a value or throws (the thrown value is kept as
    its message), together with the world it leaves and the events it
    emitted. *)
Definition M (A : Type) : Type := World → (string + A) * World * list Event.

Definition ret {A} (a : A) : M A := λ w, (inr a, w, []).

Definition bind {A B} (m : M A) (k : A → M B) : M B := λ w,
  match m w with
  | (inl error, w1, ev1) => (inl error, w1, ev1)
  | (inr a, w1, ev1) =>
      match k a w1 with
      | (r, w2, ev2) => (r, w2, ev1 ++ ev2)
      end
  end.

Notation "'let*' x := m 'in' k" := (bind m (λ x, k))
  (at level 10, x name, m at level 100, k at level 200,
   format "'[v' 'let*'  x  :=  m  'in' '/' k ']'").
Notation "m ;; k" := (bind m (λ _, k))
  (at level 100, k at level 200, right associativity,
   format "'[v' m  ;; '/' k ']'").

Definition throw {A} (error : string) : M A := λ w, (inl error, w, []).

(** [try { body } catch (error) { handler error } finally { final }]. *)
Definition try_catch_finally (body : M unit) (handler : string → M unit)
    (final : M unit) : M unit := λ w,
  match body w with
  | (inl error, w1, ev1) =>
      match handler error w1 with
      | (inl error', w2, ev2) =>
          match final w2 with
          | (inr _, w3, ev3) => (inl error', w3, ev1 ++ ev2 ++ ev3)
          | (inl error'', w3, ev3) => (inl error'', w3, ev1 ++ ev2 ++ ev3)
          end
      | (inr _, w2, ev2) =>
          match final w2 with
          | (r, w3, ev3) => (r, w3, ev1 ++ ev2 ++ ev3)
          end
      end
  | (inr _, w1, ev1) =>
      match final w1 with
      | (r, w2, ev2) => (r, w2, ev1 ++ ev2)
      end
  end.

Definition emit (e : Event) : M unit := λ w, (inr tt, w, [e]).
Definition alert (message : string) : M unit := emit (Alert message).

(** The state the handler was rendered with. *)
Definition getState : M AppState := λ w, (inr (app w), w, []).

Definition setState (f : AppState → AppState) : M unit := λ w,
  (inr tt, mkWorld (f (app w)) (idb w), []).

Definition withDb (f : DB.t → DB.t) : M unit := λ w,
  (inr tt, mkWorld (app w) (f (idb w)), []).

Definition readDb {A} (f : DB.t → A) : M A := λ w, (inr (f (idb w)), w, []).

(** The state setters of [useState]. *)
Definition setView (v : View) : M unit :=
  setState (λ s, mkApp v (currentFile s) (allMusic s) (playlists s)
                   (isModalOpen s) (isLoading s) (loadingMessage s)).
Definition setCurrentFile (f : option SheetMusic.t) : M unit :=
  setState (λ s, mkApp (view s) f (allMusic s) (playlists s)
                   (isModalOpen s) (isLoading s) (loadingMessage s)).
Definition setAllMusic (f : list SheetMusic.t → list SheetMusic.t) : M unit :=
  setState (λ s, mkApp (view s) (currentFile s) (f (allMusic s)) (playlists s)
                   (isModalOpen s) (isLoading s) (loadingMessage s)).
Definition setPlaylists (f : list Playlist.t → list Playlist.t) : M unit :=
  setState (λ s, mkApp (view s) (currentFile s) (allMusic s) (f (playlists s))
                   (isModalOpen s) (isLoading s) (loadingMessage s)).
Definition setIsModalOpen (b : bool) : M unit :=
  setState (λ s, mkApp (view s) (currentFile s) (allMusic s) (playlists s)
                   b (isLoading s) (loadingMessage s)).
Definition setIsLoading (b : bool) : M unit :=
  setState (λ s, mkApp (view s) (currentFile s) (allMusic s) (playlists s)
                   (isModalOpen s) b (loadingMessage s)).
Definition setLoadingMessage (m : string) : M unit :=
  setState (λ s, mkApp (view s) (currentFile s) (allMusic s) (playlists s)
                   (isModalOpen s) (isLoading s) m).

(** The world, the result and the events of running a handler. *)
Definition exec {A} (m : M A) (w : World) : World := (m w).1.2.
Definition result {A} (m : M A) (w : World) : string + A := (m w).1.1.
Definition events {A} (m : M A) (w : World) : list Event := (m w).2.

(** ** The file handed to the import and what pdf.js makes of it *)

Module Pdf.
(** A loaded document: its page count and, for each page number, the PNG
    data URL the page renders to or the error raised on the way. *)
Record t : Type := mk {
  numPages : nat;
  renderPage : nat → string + string
}.
End Pdf.

Module File.
(** [document] is the outcome of [file.arrayBuffer()] followed by
    [pdfjsLib.getDocument]: the error thrown, or the document. *)
Record t : Type := mk {
  name : string;
  type : string;
  document : string + Pdf.t
}.
End File.

(** ** The handlers of [App] *)

(** The body of the effect that runs when [App] mounts. *)
Definition loadData : M unit :=
  try_catch_finally
    (let* music := readDb DB.getAllSheetMusic in
     let* pls := readDb DB.getAllPlaylists in
     setAllMusic (λ _, music) ;;
     setPlaylists (λ _, pls))
    (λ error,
       emit (ConsoleError "Failed to load data from IndexedDB:" error) ;;
       alert "Could not load your music library. Please try again.")
    (setIsLoading false).

(** The loop [for (let i = 1; i <= numPages; i++)], entered at page [i] with
    [remaining] pages to go. *)
Fixpoint renderPages (pdf : Pdf.t) (i remaining : nat) (pages : list string)
    : M (list string) :=
  match remaining with
  | O => ret pages
  | S remaining' =>
      setLoadingMessage
        ("Rendering page " +:+ Number_toString (Z.of_nat i) +:+ " of "
         +:+ Number_toString (Z.of_nat (Pdf.numPages pdf)) +:+ "...") ;;
      match Pdf.renderPage pdf i with
      | inl error => throw error
      | inr dataUrl => renderPages pdf (S i) remaining' (pages ++ [dataUrl])
      end
  end.

(** The conversion of the chosen file into page images, the first half of
    the [try] block: the document is loaded, a canvas context is obtained
    ([context] tells whether the canvas gave one) and the pages are
    rendered in order.  Any of the three may throw. *)
Definition convert (file : File.t) (context : bool) : M (list string) :=
  let* pdf := match File.document file with
              | inl error => throw error
              | inr pdf => ret pdf
              end in
  (if context then ret tt else throw "Could not get canvas context") ;;
  renderPages pdf 1 (Pdf.numPages pdf) [].

(** [handleFileSelect]; [now] and [random] are the values [Date.now()] and
    [Math.random()] (as rendered in a template string) take when the item
    is built. *)
Definition handleFileSelect (file : option File.t) (context : bool)
    (now : Z) (random : string) : M unit :=
  match file with
  | None => ret tt
  | Some file =>
      if negb (includes (File.type file) "pdf")
         && negb (endsWith (toLowerCase (File.name file)) ".pdf")
      then alert "Please select a valid PDF file."
      else
        setIsLoading true ;;
        setLoadingMessage "Loading PDF..." ;;
        try_catch_finally
          (let* pages := convert file context in
           let newFile :=
             SheetMusic.mk
               ("file-" +:+ Number_toString now +:+ "-" +:+ random)
               (replace_pdf_suffix (File.name file))
               pages in
           withDb (DB.saveSheetMusic newFile) ;;
           setAllMusic (λ prev, prev ++ [newFile]) ;;
           setCurrentFile (Some newFile) ;;
           setView viewerView)
          (λ error,
             emit (ConsoleError "Error processing PDF:" error) ;;
             alert ("Failed to process PDF. It might be corrupted or invalid. Error: "
                    +:+ error))
          (setIsLoading false)
  end.

Definition handleCreatePlaylist (now : Z) (name : string) : M unit :=
  let newPlaylist :=
    Playlist.mk ("pl-" +:+ Number_toString now) name [] in
  withDb (DB.savePlaylist newPlaylist) ;;
  setPlaylists (λ prev, prev ++ [newPlaylist]).

(** [confirmed] is the answer of [window.confirm]. *)
Definition handleDeletePlaylist (confirmed : bool) (id : string) : M unit :=
  if confirmed then
    withDb (DB.deletePlaylist id) ;;
    setPlaylists (λ prev, filter (λ pl, Playlist.id pl ≠ id) prev)
  else ret tt.

Definition findPlaylist (playlistId : string) (pls : list Playlist.t)
    : option Playlist.t :=
  List.find (λ p, bool_decide (Playlist.id p = playlistId)) pls.

Definition replacePlaylist (playlistId : string) (updatedPlaylist : Playlist.t)
    (prev : list Playlist.t) : list Playlist.t :=
  (λ pl, if bool_decide (Playlist.id pl = playlistId)
         then updatedPlaylist else pl) <$> prev.

Definition handleAddToPlaylist (playlistId : string) : M unit :=
  let* s := getState in
  match currentFile s with
  | None => ret tt
  | Some currentFile =>
      match findPlaylist playlistId (playlists s) with
      | None => ret tt
      | Some playlist =>
          if bool_decide (SheetMusic.id currentFile ∈ Playlist.itemIds playlist)
          then
            alert ("'" +:+ SheetMusic.name currentFile
                   +:+ "' is already in this playlist.")
          else
            let updatedPlaylist :=
              Playlist.mk (Playlist.id playlist) (Playlist.name playlist)
                (Playlist.itemIds playlist ++ [SheetMusic.id currentFile]) in
            withDb (DB.savePlaylist updatedPlaylist) ;;
            setPlaylists (replacePlaylist playlistId updatedPlaylist) ;;
            setIsModalOpen false ;;
            alert ("Added '" +:+ SheetMusic.name currentFile +:+ "' to '"
                   +:+ Playlist.name playlist +:+ "'.")
      end
  end.

Definition handleRemoveFromPlaylist (playlistId fileId : string) : M unit :=
  let* s := getState in
  match findPlaylist playlistId (playlists s) with
  | None => ret tt
  | Some playlist =>
      let updatedPlaylist :=
        Playlist.mk (Playlist.id playlist) (Playlist.name playlist)
          (filter (λ id, id ≠ fileId) (Playlist.itemIds playlist)) in
      withDb (DB.savePlaylist updatedPlaylist) ;;
      setPlaylists (replacePlaylist playlistId updatedPlaylist)
  end.

Definition handleSelectFileFromPlaylist (file : SheetMusic.t) : M unit :=
  setCurrentFile (Some file) ;;
  setView viewerView.

(** [fullscreenElement] tells whether [document.fullscreenElement] is set. *)
Definition handleCloseViewer (fullscreenElement : bool) : M unit :=
  setView playlistsView ;;
  setCurrentFile None ;;
  if fullscreenElement then emit ExitFullscreen else ret tt.

(** [new Map(entries)]: the entries are set in order, a later entry
    replacing an earlier one with the same key. *)
Definition Map_of {V} (entries : list (string * V)) : gmap string V :=
  foldl (λ m kv, <[kv.1 := kv.2]> m) ∅ entries.

(** The memoised [hydratedPlaylists] of a render. *)
Definition hydrate (playlists : list Playlist.t) (allMusic : list SheetMusic.t)
    : list HydratedPlaylist.t :=
  let musicMap := Map_of ((λ m, (SheetMusic.id m, m)) <$> allMusic) in
  (λ pl, HydratedPlaylist.mk (Playlist.id pl) (Playlist.name pl)
           (omap (λ id, musicMap !! id) (Playlist.itemIds pl)))
  <$> playlists.

Definition hydratedPlaylists (s : AppState) : list HydratedPlaylist.t :=
  hydrate (playlists s) (allMusic s).

(** ** The create handler of [PlaylistView] *)

Module PlaylistView.
Record state : Type := mk {
  newPlaylistName : string;
  expandedPlaylists : gset string
}.

Definition initial : state := mk "" ∅.

(** [onCreatePlaylist] is the prop of that name; [App] passes its
    [handleCreatePlaylist]. *)
Definition handleCreatePlaylist (onCreatePlaylist : string → M unit)
    (st : state) : M state :=
  if truthy (trim (newPlaylistName st)) then
    onCreatePlaylist (trim (newPlaylistName st)) ;;
    ret (mk "" (expandedPlaylists st))
  else ret st.

Definition togglePlaylist (id : string) (st : state) : state :=
  mk (newPlaylistName st)
     (if bool_decide (id ∈ expandedPlaylists st)
      then expandedPlaylists st ∖ {[id]}
      else expandedPlaylists st ∪ {[id]}).
End PlaylistView.

(** ** Sessions: sequences of user actions *)

Inductive Action : Type :=
  | Mount                                  (* the page is (re)loaded *)
  | FileSelect (file : option File.t) (context : bool)
      (now : Z) (random : string)
  | CreatePlaylist (now : Z) (name : string)
  | DeletePlaylist (confirmed : bool) (id : string)
  | OpenModal
  | CloseModal
  | AddToPlaylist (playlistId : string)
  | RemoveFromPlaylist (playlistId fileId : string)
  | SelectFileFromPlaylist (file : SheetMusic.t)
  | CloseViewer (fullscreenElement : bool).

(** A (re)load keeps the database only: the component starts from its
    initial state and runs [loadData]. *)
Definition mount (w : World) : World :=
  exec loadData (mkWorld initialApp (idb w)).

Definition step (w : World) (a : Action) : World :=
  match a with
  | Mount => mount w
  | FileSelect file context now random =>
      exec (handleFileSelect file context now random) w
  | CreatePlaylist now name => exec (handleCreatePlaylist now name) w
  | DeletePlaylist confirmed id => exec (handleDeletePlaylist confirmed id) w
  | OpenModal => exec (setIsModalOpen true) w
  | CloseModal => exec (setIsModalOpen false) w
  | AddToPlaylist playlistId => exec (handleAddToPlaylist playlistId) w
  | RemoveFromPlaylist playlistId fileId =>
      exec (handleRemoveFromPlaylist playlistId fileId) w
  | SelectFileFromPlaylist file => exec (handleSelectFileFromPlaylist file) w
  | CloseViewer fullscreenElement => exec (handleCloseViewer fullscreenElement) w
  end.

Definition run (w : World) (actions : list Action) : World :=
  foldl step w actions.

(** A first visit: nothing stored yet. *)
Definition firstVisit : World := mkWorld initialApp DB.empty.

(** ** Notions used to state the properties *)

(** The document renders, page by page, to the given images. *)
Definition rendersTo (pdf : Pdf.t) (pages : list string) : Prop :=
  Pdf.numPages pdf = length pages ∧
  ∀ i page, pages !! i = Some page → Pdf.renderPage pdf (S i) = inr page.

(** The hydration as the specification words it: every playlist keeps its
    id and name, and its item ids are looked up by id in the library, in
    order, the ids that resolve to nothing being dropped.  The lookup
    resolves an id to the item the library holds under it (the one added
    last, should several carry the id). *)
Definition lookupById (items : list SheetMusic.t) (id : string)
    : option SheetMusic.t :=
  last (filter (λ m, SheetMusic.id m = id) items).

Definition hydrate_spec (playlists : list Playlist.t)
    (items : list SheetMusic.t) : list HydratedPlaylist.t :=
  (λ pl, HydratedPlaylist.mk (Playlist.id pl) (Playlist.name pl)
           (omap (lookupById items) (Playlist.itemIds pl)))
  <$> playlists.

(** No playlist, cached or stored, lists an item twice. *)
Definition noDuplicateMembers (w : World) : Prop :=
  Forall (λ pl, NoDup (Playlist.itemIds pl)) (playlists (app w)) ∧
  map_Forall (λ _ pl, NoDup (Playlist.itemIds pl)) (DB.playlists (idb w)).

(** The playlists of the cache have pairwise distinct ids. *)
Definition uniquePlaylistIds (w : World) : Prop :=
  NoDup (Playlist.id <$> playlists (app w)).

(** Every cached playlist is the record the store holds under its id. *)
Definition mirrored (w : World) : Prop :=
  ∀ pl, pl ∈ playlists (app w) →
        DB.playlists (idb w) !! Playlist.id pl = Some pl.

(** How often [x] occurs in [l]. *)
Definition occurrences (x : string) (l : list string) : nat :=
  length (filter (λ y, y = x) l).

(** [w'] differs from [w] at most in the loading indicator. *)
Definition sameData (w w' : World) : Prop :=
  idb w' = idb w ∧
  allMusic (app w') = allMusic (app w) ∧
  playlists (app w') = playlists (app w) ∧
  currentFile (app w') = currentFile (app w) ∧
  view (app w') = view (app w) ∧
  isModalOpen (app w') = isModalOpen (app w).

(** The file passes the check of its type and name. *)
Definition looksLikePdf (file : File.t) : bool :=
  includes (File.type file) "pdf"
  || endsWith (toLowerCase (File.name file)) ".pdf".

(** The spellings of the extension that the import strips. *)
Definition pdfExtensions : list string :=
  [".pdf"; ".pdF"; ".pDf"; ".pDF"; ".Pdf"; ".PdF"; ".PDf"; ".PDF"].



(** No minus sign occurs in the string. *)
Fixpoint noDash (s : string) : bool :=
  match s with
  | "" => true
  | String c s' => negb (Ascii.eqb c "-") && noDash s'
  end.

(** The decimal numeral has at least one digit. *)
Definition hasDigits (i : Decimal.int) : Prop :=
  match i with
  | Decimal.Pos d | Decimal.Neg d => d ≠ Decimal.Nil
  end.

(** Every stored playlist sits under its own id (the key path). *)
Definition keyedById (w : World) : Prop :=
  ∀ k pl, DB.playlists (idb w) !! k = Some pl → Playlist.id pl = k.

(** The cache is a faithful mirror of the playlist store. *)
Definition consistent (w : World) : Prop :=
  keyedById w ∧ uniquePlaylistIds w ∧ mirrored w.

(** Along the session, every playlist is created under an id that no cached
    playlist carries yet. *)
Fixpoint freshIds (w : World) (actions : list Action) : Prop :=
  match actions with
  | [] => True
  | a :: actions' =>
      match a with
      | CreatePlaylist now _ =>
          "pl-" +:+ Number_toString now ∉ Playlist.id <$> playlists (app w)
      | _ => True
      end ∧ freshIds (step w a) actions'
  end.

(** A string made of white-space characters only. *)
Definition blank (s : string) : Prop :=
  ∃ ws, Forall (λ c, c ∈ whiteSpace) ws ∧ s = foldr String.append "" ws.

(** ** The viewer ([Viewer.tsx])

    The state of the component: the zoom factor, the auto-scroll switch,
    the scroll speed and the time of the last tap (a ref).  Times and
    speeds are integral numbers; the zoom factor is a rational, exact for
    the values the handlers produce from the buttons (multiples of 1/4
    between 1/2 and 3).  The animation-frame loop that moves the scroll
    position of the page is left to the browser. *)
Module Viewer.
Record state : Type := mk {
  scale : Q;
  isAutoScrolling : bool;
  scrollSpeed : Z;
  lastTap : Z
}.

Definition initial : state := mk 1 false 2 0.

(** [a > b] on numbers. *)
Definition gt (a b : Q) : bool := negb (Qle_bool a b).

Definition handleDoubleClick (st : state) : state :=
  mk (if gt (scale st) 1 then 1 else 2)
     (isAutoScrolling st) (scrollSpeed st) (lastTap st).

(** [currentTime] is [new Date().getTime()]. *)
Definition handleTouchEnd (currentTime : Z) (st : state) : state :=
  let tapLength := (currentTime - lastTap st)%Z in
  mk (if (tapLength <? 300)%Z && (0 <? tapLength)%Z
      then (if gt (scale st) 1 then 1 else 5 # 2)
      else scale st)
     (isAutoScrolling st) (scrollSpeed st) currentTime.

Definition changeSpeed (delta : Z) (st : state) : state :=
  mk (scale st) (isAutoScrolling st)
     (Z.max 1 (Z.min 10 (scrollSpeed st + delta))) (lastTap st).

Definition zoom (delta : Q) (st : state) : state :=
  mk (Qmax (1 # 2) (Qmin 3 (scale st + delta)))
     (isAutoScrolling st) (scrollSpeed st) (lastTap st).

Definition toggleAutoScroll (st : state) : state :=
  mk (scale st) (negb (isAutoScrolling st)) (scrollSpeed st) (lastTap st).

(** What the user can do in the viewer: the two zoom buttons, the two
    speed buttons, the play button, a double click and a tap. *)
Inductive Action : Type :=
  | ZoomOut | ZoomIn | Slower | Faster | PlayPause
  | DoubleClick | TouchEnd (currentTime : Z).

Definition step (st : state) (a : Action) : state :=
  match a with
  | ZoomOut => zoom (- (1 # 4)) st
  | ZoomIn => zoom (1 # 4) st
  | Slower => changeSpeed (-1) st
  | Faster => changeSpeed 1 st
  | PlayPause => toggleAutoScroll st
  | DoubleClick => handleDoubleClick st
  | TouchEnd currentTime => handleTouchEnd currentTime st
  end.

Definition run (st : state) (actions : list Action) : state :=
  foldl step st actions.
End Viewer.

(** ** The service worker ([sw.js])

    The cache storage maps a cache name to a cache, and a cache maps the
    URL of a request to the response stored for it.  The network is an
    argument of the fetch handler: the response it gives to a request, if
    any.  An event is handled to its end before the next one. *)
Module SW.
Definition CACHE_NAME : string := "sheet-music-reader-v2".

Record Request : Type := mkRequest {
  method : string;
  url : string
}.

Record Response : Type := mkResponse {
  status : Z;
  body : string
}.

(** [caches.keys()]. *)
Definition keys (caches : gmap string (gmap string Response)) : list string :=
  (map_to_list caches).*1.

(** The [activate] listener: every cache whose name is not the current
    one is deleted. *)
Definition activate (caches : gmap string (gmap string Response))
    : gmap string (gmap string Response) :=
  foldr delete caches
    (filter (λ cacheName, cacheName ≠ CACHE_NAME) (keys caches)).

(** The [fetch] listener.  The result is the answer given with
    [respondWith] ([None] when the worker leaves the request to the
    browser; [Some None] when the promise it answers with rejects) and
    the cache storage afterwards. *)
Definition onFetch (network : Request → option Response) (request : Request)
    (caches : gmap string (gmap string Response))
    : option (option Response) * gmap string (gmap string Response) :=
  if bool_decide (method request ≠ "GET") then (None, caches)
  else
    let cache := default ∅ (caches !! CACHE_NAME) in
    let response := cache !! url request in
    let networkResponse := network request in
    let cache' :=
      match networkResponse with
      | Some r =>
          if bool_decide (status r = 200%Z) then <[url request := r]> cache
          else cache
      | None => cache
      end in
    (Some (match response with
           | Some r => Some r
           | None => networkResponse
           end),
     <[CACHE_NAME := cache']> caches).

(** What [cache.match] finds for a URL in the current cache. *)
Definition cached (caches : gmap string (gmap string Response)) (u : string)
    : option Response :=
  default ∅ (caches !! CACHE_NAME) !! u.

(** The events the worker handles, and the cache storage along them. *)
Inductive Event : Type :=
  | Activate
  | Fetch (network : Request → option Response) (request : Request).

Definition step (caches : gmap string (gmap string Response)) (e : Event)
    : gmap string (gmap string Response) :=
  match e with
  | Activate => activate caches
  | Fetch network request => (onFetch network request caches).2
  end.

Definition run (caches : gmap string (gmap string Response))
    (events : list Event) : gmap string (gmap string Response) :=
  foldl step caches events.
End SW.

(** ** Further notions *)

(** Every stored item sits under its own id (the key path). *)
Definition itemsKeyedById (w : World) : Prop :=
  ∀ k m, DB.sheetMusic (idb w) !! k = Some m → SheetMusic.id m = k.

(** The zoom factor is a multiple of 1/4 between 1/2 and 3. *)
Definition scaleInRange (st : Viewer.state) : Prop :=
  (1 # 2 <= Viewer.scale st)%Q ∧ (Viewer.scale st <= 3)%Q ∧
  ∃ k : Z, (Viewer.scale st == k # 4)%Q.

(** Each tap comes at least 300 ms after the one before. *)
Fixpoint slowTaps (last : Z) (times : list Z) : Prop :=
  match times with
  | [] => True
  | t :: times' => (last + 300 ≤ t)%Z ∧ slowTaps t times'
  end.

(** * Properties *)

(** ** Running handlers *)

Ltac run_handler :=
  unfold setView, setCurrentFile, setAllMusic, setPlaylists, setIsModalOpen,
    setIsLoading, setLoadingMessage, alert in *;
  unfold exec, result, events, bind, ret, throw, emit, getState, setState,
    withDb, readDb in *;
  cbn [fst snd app idb view currentFile allMusic playlists isModalOpen
       isLoading loadingMessage] in *.

(** ** Strings *)

Lemma append_cons (c : ascii) (s t : string) :
  String c s +:+ t = String c (s +:+ t).
Proof. reflexivity. Qed.

Lemma append_nil_l (t : string) : "" +:+ t = t.
Proof. reflexivity. Qed.

Ltac simpl_append := rewrite ?append_cons, ?append_nil_l in *.

Lemma append_nil_r (s : string) : s +:+ "" = s.
Proof. induction s as [|c s IH]; [done|]. by rewrite append_cons, IH. Qed.

Lemma rev_app_append (s1 s2 acc : string) :
  String.rev_app (s1 +:+ s2) acc = String.rev_app s2 (String.rev_app s1 acc).
Proof.
  revert acc. induction s1 as [|c s1 IH]; intros acc; [done|].
  rewrite append_cons. cbn [String.rev_app]. apply IH.
Qed.

Lemma rev_app_rev_app (s a b : string) :
  String.rev_app (String.rev_app s a) b = String.rev_app a (s +:+ b).
Proof.
  revert a. induction s as [|c s IH]; intros a; [done|].
  cbn [String.rev_app]. by rewrite IH.
Qed.

Lemma rev_involutive (s : string) : String.rev (String.rev s) = s.
Proof. unfold String.rev. rewrite rev_app_rev_app. apply append_nil_r. Qed.

Lemma toLowerCase_append (s1 s2 : string) :
  toLowerCase (s1 +:+ s2) = toLowerCase s1 +:+ toLowerCase s2.
Proof.
  induction s1 as [|c s1 IH]; [done|].
  rewrite append_cons. cbn [toLowerCase]. by rewrite IH.
Qed.

Lemma lower_ascii_dot (c : ascii) : lower_ascii c = "."%char → c = "."%char.
Proof.
  destruct c as [[] [] [] [] [] [] [] []]; vm_compute; congruence.
Qed.

Lemma endsWith_pdf (base ext : string) :
  toLowerCase ext = ".pdf" →
  endsWith (toLowerCase (base +:+ ext)) ".pdf" = true.
Proof.
  intros Hext. unfold endsWith, String.rev.
  rewrite toLowerCase_append, Hext, rev_app_append. cbn.
  repeat (destruct (ascii_dec _ _); [|done]). by destruct (String.rev_app _ _).
Qed.

Lemma replace_pdf_suffix_strips (base ext : string) :
  toLowerCase ext = ".pdf" → replace_pdf_suffix (base +:+ ext) = base.
Proof.
  intros Hext.
  destruct ext as [|c1 [|c2 [|c3 [|c4 [|c5 ext]]]]]; try discriminate.
  cbn in Hext. injection Hext as H1 H2 H3 H4.
  apply lower_ascii_dot in H1. subst c1.
  unfold replace_pdf_suffix, String.rev. rewrite rev_app_append.
  cbn [String.rev_app]. rewrite H2, H3, H4. cbn.
  apply rev_involutive.
Qed.

(** *** What the checks of the import accept *)







Lemma lower_ascii_pdf (c : ascii) :
  (lower_ascii c = "p"%char → c = "p"%char ∨ c = "P"%char) ∧
  (lower_ascii c = "d"%char → c = "d"%char ∨ c = "D"%char) ∧
  (lower_ascii c = "f"%char → c = "f"%char ∨ c = "F"%char).
Proof.
  destruct c as [[] [] [] [] [] [] [] []]; vm_compute;
    repeat split; intros; (discriminate || auto).
Qed.

Lemma pdfExtension_lower (ext : string) :
  toLowerCase ext = ".pdf" ↔ ext ∈ pdfExtensions.
Proof.
  split.
  - intros Hext.
    destruct ext as [|c1 [|c2 [|c3 [|c4 [|c5 ext]]]]]; try discriminate.
    cbn in Hext. injection Hext as H1 H2 H3 H4.
    apply lower_ascii_dot in H1. subst c1.
    destruct (lower_ascii_pdf c2) as (Hp & _ & _).
    destruct (lower_ascii_pdf c3) as (_ & Hd & _).
    destruct (lower_ascii_pdf c4) as (_ & _ & Hf).
    destruct (Hp H2) as [-> | ->], (Hd H3) as [-> | ->],
      (Hf H4) as [-> | ->]; unfold pdfExtensions; repeat constructor.
  - unfold pdfExtensions. intros Hin.
    repeat (apply elem_of_cons in Hin as [->|Hin]; [reflexivity|]).
    by apply elem_of_nil in Hin.
Qed.




(** ** White space *)

Lemma dropWhiteSpace_whiteSpace (c rest : string) :
  c ∈ whiteSpace → dropWhiteSpace whiteSpace (c +:+ rest) = Some rest.
Proof.
  intros Hc. vm_compute in Hc.
  repeat (apply elem_of_cons in Hc as [->|Hc]; [reflexivity|]).
  by apply elem_of_nil in Hc.
Qed.

Lemma whiteSpace_nonempty (c : string) : c ∈ whiteSpace → c ≠ "".
Proof.
  intros Hc. vm_compute in Hc.
  repeat (apply elem_of_cons in Hc as [->|Hc]; [discriminate|]).
  by apply elem_of_nil in Hc.
Qed.

Lemma trimLoop_blank (ws : list string) (fuel : nat) :
  Forall (λ c, c ∈ whiteSpace) ws → length ws ≤ fuel →
  trimLoop whiteSpace fuel (foldr String.append "" ws) = "".
Proof.
  intros Hws. revert fuel.
  induction Hws as [|c ws Hc Hws IH]; intros fuel Hfuel.
  - by destruct fuel.
  - destruct fuel as [|fuel]; [cbn in Hfuel; lia|].
    cbn [foldr trimLoop]. rewrite dropWhiteSpace_whiteSpace by done.
    apply IH. cbn in Hfuel. lia.
Qed.

Lemma length_append (s t : string) :
  String.length (s +:+ t) = String.length s + String.length t.
Proof.
  induction s as [|c s IH]; [done|].
  rewrite append_cons. cbn. by rewrite IH.
Qed.

Lemma blank_length (ws : list string) :
  Forall (λ c, c ∈ whiteSpace) ws →
  length ws ≤ String.length (foldr String.append "" ws).
Proof.
  induction 1 as [|c ws Hc Hws IH]; [done|].
  cbn [foldr length]. rewrite length_append.
  apply whiteSpace_nonempty in Hc. destruct c; [done|]. cbn. lia.
Qed.

Lemma trim_blank (s : string) : blank s → trim s = "".
Proof.
  intros (ws & Hws & ->). unfold trim, trimStart.
  rewrite trimLoop_blank; [done|done|by apply blank_length].
Qed.

(** ** Ids built from the clock *)

Lemma string_of_uint_noDash (d : uint) :
  noDash (NilEmpty.string_of_uint d) = true.
Proof. induction d; cbn; auto. Qed.

Lemma string_of_uint_nonempty (d : uint) :
  d ≠ Nil → ∃ c s, NilEmpty.string_of_uint d = String c s ∧ c ≠ "-"%char.
Proof. destruct d; [done|..]; intros _; cbn; eexists _, _; split; done. Qed.

Lemma string_of_uint_inj (d1 d2 : uint) :
  NilEmpty.string_of_uint d1 = NilEmpty.string_of_uint d2 → d1 = d2.
Proof.
  intros Heq. apply (f_equal NilEmpty.uint_of_string) in Heq.
  rewrite !NilEmpty.usu in Heq. congruence.
Qed.

Lemma split_at_dash (s1 s2 r1 r2 : string) :
  noDash s1 = true → noDash s2 = true →
  s1 +:+ String "-" r1 = s2 +:+ String "-" r2 → s1 = s2 ∧ r1 = r2.
Proof.
  revert s2. induction s1 as [|c1 s1 IH]; intros [|c2 s2] H1 H2 Heq;
    simpl_append; cbn in *.
  - by injection Heq as ->.
  - injection Heq as <- _. by rewrite Ascii.eqb_refl in H2.
  - injection Heq as -> _. by rewrite Ascii.eqb_refl in H1.
  - injection Heq as -> Heq.
    apply andb_prop in H1 as [_ H1]. apply andb_prop in H2 as [_ H2].
    destruct (IH s2 H1 H2 Heq) as [-> ->]. done.
Qed.

Lemma string_of_int_split (i1 i2 : Decimal.int) (r1 r2 : string) :
  hasDigits i1 → hasDigits i2 →
  NilEmpty.string_of_int i1 +:+ String "-" r1
    = NilEmpty.string_of_int i2 +:+ String "-" r2 →
  i1 = i2 ∧ r1 = r2.
Proof.
  destruct i1 as [d1|d1], i2 as [d2|d2]; cbn; intros Hd1 Hd2 Heq;
    simpl_append.
  - apply split_at_dash in Heq as [Heq ->]; auto using string_of_uint_noDash.
    by apply string_of_uint_inj in Heq as ->.
  - destruct (string_of_uint_nonempty d1 Hd1) as (c & s & E & Hc).
    rewrite E in Heq. simpl_append. by injection Heq as -> _.
  - destruct (string_of_uint_nonempty d2 Hd2) as (c & s & E & Hc).
    rewrite E in Heq. simpl_append. by injection Heq as <- _.
  - injection Heq as Heq.
    apply split_at_dash in Heq as [Heq ->]; auto using string_of_uint_noDash.
    by apply string_of_uint_inj in Heq as ->.
Qed.

Lemma to_int_hasDigits (n : Z) : hasDigits (Z.to_int n).
Proof.
  destruct n as [|p|p]; cbn; [done|apply Unsigned.to_uint_nonnil..].
Qed.

Lemma Number_toString_inj (n1 n2 : Z) :
  Number_toString n1 = Number_toString n2 → n1 = n2.
Proof.
  unfold Number_toString. intros Heq.
  apply DecimalZ.to_int_inj.
  apply (f_equal NilEmpty.int_of_string) in Heq.
  rewrite !NilEmpty.isi in Heq. congruence.
Qed.

Lemma file_id_inj (now1 now2 : Z) (random1 random2 : string) :
  "file-" +:+ Number_toString now1 +:+ "-" +:+ random1
    = "file-" +:+ Number_toString now2 +:+ "-" +:+ random2 →
  now1 = now2 ∧ random1 = random2.
Proof.
  intros Heq. simpl_append. injection Heq as Heq.
  apply string_of_int_split in Heq as [Heq ->]; auto using to_int_hasDigits.
  by apply DecimalZ.to_int_inj in Heq as ->.
Qed.

Lemma playlist_id_inj (now1 now2 : Z) :
  "pl-" +:+ Number_toString now1 = "pl-" +:+ Number_toString now2 →
  now1 = now2.
Proof.
  intros Heq. simpl_append. injection Heq as Heq.
  by apply Number_toString_inj.
Qed.

(** ** The store and the handlers that create and delete *)

Lemma getAll_elem_of {V} (store : gmap string V) (v : V) :
  v ∈ DB.getAll store ↔ ∃ k, store !! k = Some v.
Proof.
  unfold DB.getAll. rewrite list_elem_of_fmap. split.
  - intros [[k v'] [-> Hin]]. exists k.
    rewrite merge_sort_Permutation in Hin.
    by apply elem_of_map_to_list in Hin.
  - intros [k Hk]. exists (k, v). split; [done|].
    rewrite merge_sort_Permutation. by apply elem_of_map_to_list.
Qed.

(** C9.  Deleting a playlist touches the playlist records of that id only.
    The library (cache and store) and the open item are as before; the
    other playlists, in the cache and in the store, are as before; once
    confirmed, the cache is the old one without the playlists of that id
    and the store is the old one without that key.  When the user does not
    confirm, nothing changes at all. *)
Theorem deletePlaylist_frame (w : World) (confirmed : bool) (id : string) :
  let w' := exec (handleDeletePlaylist confirmed id) w in
  allMusic (app w') = allMusic (app w) ∧
  DB.sheetMusic (idb w') = DB.sheetMusic (idb w) ∧
  currentFile (app w') = currentFile (app w) ∧
  filter (λ pl, Playlist.id pl ≠ id) (playlists (app w'))
    = filter (λ pl, Playlist.id pl ≠ id) (playlists (app w)) ∧
  (∀ k, k ≠ id → DB.playlists (idb w') !! k = DB.playlists (idb w) !! k) ∧
  (if confirmed
   then playlists (app w')
          = filter (λ pl, Playlist.id pl ≠ id) (playlists (app w)) ∧
        DB.playlists (idb w') = delete id (DB.playlists (idb w))
   else w' = w).
Proof.
  destruct confirmed; cbn; [|done].
  repeat split; try done.
  - apply list_filter_filter_l. done.
  - intros k Hk. by rewrite lookup_delete_ne.
Qed.

Lemma deletePlaylist_frame_witness :
  let practice := Playlist.mk "pl-2000" "Practice" ["file-1000-0.5"] in
  let recital := Playlist.mk "pl-3000" "Recital" ["file-1000-0.5"] in
  let sonata := SheetMusic.mk "file-1000-0.5" "Sonata" ["page1"] in
  let w :=
    mkWorld (mkApp playlistsView None [sonata] [practice; recital] false false "")
      (DB.mk {[ "file-1000-0.5" := sonata ]}
         {[ "pl-2000" := practice; "pl-3000" := recital ]}) in
  let w' := exec (handleDeletePlaylist true "pl-2000") w in
  allMusic (app w') = [sonata] ∧
  DB.sheetMusic (idb w') = {[ "file-1000-0.5" := sonata ]} ∧
  playlists (app w') = [recital] ∧
  DB.playlists (idb w') !! "pl-3000" = Some recital.
Proof.
  intros practice recital sonata w w'.
  destruct (deletePlaylist_frame w true "pl-2000")
    as (Hmusic & Hstore & _ & _ & Hothers & Hcache & _).
  split; [exact Hmusic|]. split; [exact Hstore|]. split; [exact Hcache|].
  unfold w'. rewrite (Hothers "pl-3000") by discriminate. reflexivity.
Defined.

(** C8.  Round trip through the store: after a playlist is created under a
    name (["Practice"], say) and the page is loaded again, the store holds
    the playlist under its id with that name and no members, the cache is
    what the store lists, the playlist is in the cache, and its hydrated
    form has that name and no items. *)
Theorem create_reload_roundtrip (w : World) (now : Z) (name : string) :
  let id := "pl-" +:+ Number_toString now in
  let w' := mount (exec (handleCreatePlaylist now name) w) in
  DB.playlists (idb w') !! id = Some (Playlist.mk id name []) ∧
  playlists (app w') = DB.getAllPlaylists (idb w') ∧
  Playlist.mk id name [] ∈ playlists (app w') ∧
  HydratedPlaylist.mk id name [] ∈ hydratedPlaylists (app w').
Proof.
  intros id w'.
  assert (Hstore : DB.playlists (idb w') !! id = Some (Playlist.mk id name [])).
  { subst w' id. cbn. by rewrite lookup_insert_eq. }
  assert (Hin : Playlist.mk id name [] ∈ playlists (app w')).
  { change (playlists (app w')) with (DB.getAll (DB.playlists (idb w'))).
    apply getAll_elem_of. by exists id. }
  repeat split; try done.
  unfold hydratedPlaylists, hydrate. apply list_elem_of_fmap.
  by exists (Playlist.mk id name []).
Qed.

Lemma create_reload_roundtrip_witness :
  let w' := mount (exec (handleCreatePlaylist 2000 "Practice") firstVisit) in
  Playlist.mk "pl-2000" "Practice" [] ∈ playlists (app w') ∧
  HydratedPlaylist.mk "pl-2000" "Practice" [] ∈ hydratedPlaylists (app w').
Proof.
  intros w'.
  destruct (create_reload_roundtrip firstVisit 2000 "Practice")
    as (_ & _ & Hcache & Hhydrated).
  split; [exact Hcache|exact Hhydrated].
Defined.

(** C5.  Creating a playlist from a name that is empty once trimmed (an
    empty or white-space-only name) does nothing: the create handler of
    the view returns without calling [App]'s handler, so the world (the
    cached playlists and the store) and the view's own state are as
    before, and nothing is shown to the user. *)
Theorem create_blank_name_noop (w : World) (st : PlaylistView.state) (now : Z) :
  trim (PlaylistView.newPlaylistName st) = "" →
  PlaylistView.handleCreatePlaylist (handleCreatePlaylist now) st w
    = (inr st, w, []).
Proof.
  intros Hblank. unfold PlaylistView.handleCreatePlaylist.
  by rewrite Hblank.
Qed.

Lemma create_blank_name_noop_witness :
  trim "   " = "" ∧
  PlaylistView.handleCreatePlaylist (handleCreatePlaylist 1000)
    (PlaylistView.mk "   " ∅) firstVisit
    = (inr (PlaylistView.mk "   " ∅), firstVisit, []).
Proof.
  split; [reflexivity|].
  apply (create_blank_name_noop firstVisit (PlaylistView.mk "   " ∅) 1000).
  reflexivity.
Defined.

(** ** Import *)

Lemma renderPages_run (pdf : Pdf.t) (remaining i : nat) (pages : list string)
    (w1 w2 : World) :
  ∃ r w1' w2',
    renderPages pdf i remaining pages w1 = (r, w1', []) ∧
    renderPages pdf i remaining pages w2 = (r, w2', []) ∧
    sameData w1 w1' ∧ sameData w2 w2'.
Proof.
  revert i pages w1 w2.
  induction remaining as [|k IH]; intros i pages w1 w2.
  - by exists (inr pages), w1, w2.
  - cbn [renderPages]. run_handler.
    destruct (Pdf.renderPage pdf i) as [error|dataUrl].
    + by eexists _, _, _.
    + match goal with
      | |- ∃ r w1' w2',
             (let (_, _) := renderPages _ _ _ ?p ?wa in _) = _ ∧
             (let (_, _) := renderPages _ _ _ ?p ?wb in _) = _ ∧ _ =>
          destruct (IH (S i) p wa wb) as (r & wa' & wb' & -> & -> & Ha & Hb)
      end.
      exists r, wa', wb'. done.
Qed.

Lemma convert_run (file : File.t) (context : bool) (w1 w2 : World) :
  ∃ r w1' w2',
    convert file context w1 = (r, w1', []) ∧
    convert file context w2 = (r, w2', []) ∧
    sameData w1 w1' ∧ sameData w2 w2'.
Proof.
  unfold convert. run_handler.
  destruct (File.document file) as [error|pdf].
  - by eexists _, w1, w2.
  - destruct context.
    + destruct (renderPages_run pdf (Pdf.numPages pdf) 1 [] w1 w2)
        as (r & w1' & w2' & -> & -> & H1 & H2).
      by exists r, w1', w2'.
    + by eexists _, w1, w2.
Qed.

(** C3.  When the conversion of the chosen file throws, the import leaves
    the library, the playlists, the store, the open item and the screen as
    they were (no item is saved), and the user is told the reason. *)
Theorem import_failure_keeps_state (w : World) (file : File.t)
    (context : bool) (now : Z) (random error : string) :
  result (convert file context) w = inl error →
  let w' := exec (handleFileSelect (Some file) context now random) w in
  allMusic (app w') = allMusic (app w) ∧
  playlists (app w') = playlists (app w) ∧
  idb w' = idb w ∧
  currentFile (app w') = currentFile (app w) ∧
  view (app w') = view (app w) ∧
  events (handleFileSelect (Some file) context now random) w
    = if looksLikePdf file
      then [ConsoleError "Error processing PDF:" error;
            Alert ("Failed to process PDF. It might be corrupted or invalid. Error: "
                   +:+ error)]
      else [Alert "Please select a valid PDF file."].
Proof.
  intros Hfail. unfold handleFileSelect, looksLikePdf.
  rewrite <- negb_orb.
  destruct (includes _ _ || endsWith _ _); cbn [negb]; [|done].
  unfold try_catch_finally. run_handler.
  match goal with |- context [convert file context ?w0] =>
    destruct (convert_run file context w w0) as (r & w1 & w2 & E1 & E2 & _ & Hs)
  end.
  rewrite E1 in Hfail. cbn in Hfail. subst r.
  rewrite !E2. cbn. destruct Hs as (?&?&?&?&?&?). cbn in *. done.
Qed.

Lemma import_failure_keeps_state_witness :
  let pdf :=
    Pdf.mk 2 (λ i, if decide (i = 2) then inl "Invalid PDF structure."
                   else inr "data:image/png;base64,AAAA") in
  let file := File.mk "Broken.pdf" "application/pdf" (inr pdf) in
  let w' := exec (handleFileSelect (Some file) true 1000 "0.5") firstVisit in
  result (convert file true) firstVisit = inl "Invalid PDF structure." ∧
  allMusic (app w') = [] ∧
  idb w' = DB.empty.
Proof.
  intros pdf file w'. split; [reflexivity|].
  destruct (import_failure_keeps_state firstVisit file true 1000 "0.5"
              "Invalid PDF structure." eq_refl)
    as (Hmusic & _ & Hstore & _).
  split; [exact Hmusic|exact Hstore].
Defined.

Lemma renderPages_ok (pdf : Pdf.t) (rest : list string) (i : nat)
    (pages : list string) (w : World) :
  (∀ j page, rest !! j = Some page → Pdf.renderPage pdf (i + j) = inr page) →
  ∃ w', renderPages pdf i (length rest) pages w = (inr (pages ++ rest), w', [])
        ∧ sameData w w'.
Proof.
  revert i pages w. induction rest as [|page rest IH]; intros i pages w Hrender.
  - exists w. by rewrite app_nil_r.
  - cbn [length renderPages]. run_handler.
    pose proof (Hrender 0 page eq_refl) as Hpage.
    rewrite Nat.add_0_r in Hpage. rewrite Hpage.
    match goal with |- context [renderPages _ _ _ _ ?w0] =>
      destruct (IH (S i) (pages ++ [page]) w0) as (w' & -> & Hs) end.
    { intros j p Hj. replace (S i + j) with (i + S j) by lia.
      by apply Hrender. }
    exists w'. by rewrite <- app_assoc.
Qed.

Lemma convert_ok (file : File.t) (pdf : Pdf.t) (pages : list string) (w : World) :
  File.document file = inr pdf → rendersTo pdf pages →
  ∃ w', convert file true w = (inr pages, w', []) ∧ sameData w w'.
Proof.
  intros Hdoc [Hnum Hrender]. unfold convert. rewrite Hdoc. run_handler.
  rewrite Hnum.
  destruct (renderPages_ok pdf pages 1 [] w) as (w' & -> & Hs); [done|].
  by exists w'.
Qed.

Lemma import_ok (w : World) (file : File.t) (pdf : Pdf.t)
    (pages : list string) (now : Z) (random : string) :
  looksLikePdf file = true → File.document file = inr pdf →
  rendersTo pdf pages →
  let item :=
    SheetMusic.mk ("file-" +:+ Number_toString now +:+ "-" +:+ random)
      (replace_pdf_suffix (File.name file)) pages in
  let w' := exec (handleFileSelect (Some file) true now random) w in
  currentFile (app w') = Some item ∧
  view (app w') = viewerView ∧
  allMusic (app w') = allMusic (app w) ++ [item] ∧
  playlists (app w') = playlists (app w) ∧
  DB.sheetMusic (idb w') = <[SheetMusic.id item := item]> (DB.sheetMusic (idb w)) ∧
  DB.playlists (idb w') = DB.playlists (idb w).
Proof.
  intros Hpdf Hdoc Hrender. unfold handleFileSelect.
  unfold looksLikePdf in Hpdf. rewrite <- negb_orb, Hpdf. cbn [negb].
  unfold try_catch_finally. run_handler.
  match goal with |- context [convert file true ?w0] =>
    destruct (convert_ok file pdf pages w0 Hdoc Hrender) as (w1 & E & Hs) end.
  rewrite !E. cbn. destruct Hs as (Hdb & Hmusic & Hpls & _). cbn in *.
  rewrite Hdb, Hmusic, Hpls. done.
Qed.

(** C6.  Importing a file named [base] followed by [".pdf"] in any
    spelling of upper and lower case (["Sonata.pdf"], ["Sonata.PDF"]) whose
    document renders to [pages] gives an item named [base] (["Sonata"])
    with exactly these pages in this order.  Importing the same file twice
    gives two items, both kept in the library and in the store, whatever
    the content: nothing is deduplicated.  The id is built from the clock
    and the random draw and from nothing else, so the two ids are equal
    exactly when the two imports read the same clock value and draw the
    same random number; the store then holds the one record both items
    share. *)
Theorem import_names_and_identifies (w : World) (base ext type : string)
    (pdf : Pdf.t) (pages : list string) (now1 now2 : Z)
    (random1 random2 : string) :
  ext ∈ pdfExtensions →
  rendersTo pdf pages →
  let file := File.mk (base +:+ ext) type (inr pdf) in
  let item1 :=
    SheetMusic.mk ("file-" +:+ Number_toString now1 +:+ "-" +:+ random1)
      base pages in
  let item2 :=
    SheetMusic.mk ("file-" +:+ Number_toString now2 +:+ "-" +:+ random2)
      base pages in
  let w1 := exec (handleFileSelect (Some file) true now1 random1) w in
  let w2 := exec (handleFileSelect (Some file) true now2 random2) w1 in
  currentFile (app w1) = Some item1 ∧
  allMusic (app w1) = allMusic (app w) ++ [item1] ∧
  currentFile (app w2) = Some item2 ∧
  allMusic (app w2) = allMusic (app w) ++ [item1; item2] ∧
  (SheetMusic.id item1 = SheetMusic.id item2
   ↔ now1 = now2 ∧ random1 = random2) ∧
  DB.sheetMusic (idb w2) !! SheetMusic.id item1 = Some item1 ∧
  DB.sheetMusic (idb w2) !! SheetMusic.id item2 = Some item2.
Proof.
  intros Hext%pdfExtension_lower Hrender file item1 item2 w1 w2.
  assert (Hpdf : looksLikePdf file = true).
  { unfold looksLikePdf, file. cbn [File.type File.name].
    rewrite (endsWith_pdf base ext Hext).
    apply orb_true_r. }
  assert (Hname : replace_pdf_suffix (File.name file) = base)
    by apply (replace_pdf_suffix_strips base ext Hext).
  destruct (import_ok w file pdf pages now1 random1 Hpdf eq_refl Hrender)
    as (Hc1 & _ & Hm1 & _ & Hdb1 & _).
  destruct (import_ok w1 file pdf pages now2 random2 Hpdf eq_refl Hrender)
    as (Hc2 & _ & Hm2 & _ & Hdb2 & _).
  fold w1 in Hc1, Hm1, Hdb1. fold w2 in Hc2, Hm2, Hdb2.
  rewrite Hname in *. fold item1 in Hc1, Hm1, Hdb1. fold item2 in Hc2, Hm2, Hdb2.
  assert (Hids : SheetMusic.id item1 = SheetMusic.id item2
                 ↔ now1 = now2 ∧ random1 = random2).
  { split; [apply file_id_inj|]. by intros [-> ->]. }
  split; [done|]. split; [done|]. split; [done|].
  split; [|split; [exact Hids|split]].
  - by rewrite Hm2, Hm1, <- app_assoc.
  - rewrite Hdb2, Hdb1.
    destruct (decide (SheetMusic.id item1 = SheetMusic.id item2)) as [Heq|Hne].
    + assert (item1 = item2) as ->
        by (apply Hids in Heq as [-> ->]; done).
      apply lookup_insert_eq.
    + rewrite lookup_insert_ne by done. apply lookup_insert_eq.
  - rewrite Hdb2. apply lookup_insert_eq.
Qed.

Lemma import_names_and_identifies_witness :
  let pdf := Pdf.mk 2 (λ i, inr (if decide (i = 1) then "page1" else "page2")) in
  let file := File.mk "Sonata.PDF" "" (inr pdf) in
  let w1 := exec (handleFileSelect (Some file) true 1000 "0.25") firstVisit in
  let w2 := exec (handleFileSelect (Some file) true 1000 "0.75") w1 in
  ".PDF" ∈ pdfExtensions ∧
  allMusic (app w2)
    = [SheetMusic.mk "file-1000-0.25" "Sonata" ["page1"; "page2"];
       SheetMusic.mk "file-1000-0.75" "Sonata" ["page1"; "page2"]] ∧
  "file-1000-0.25" ≠ "file-1000-0.75".
Proof.
  intros pdf file w1 w2.
  assert (Hext : ".PDF" ∈ pdfExtensions) by repeat constructor.
  split; [exact Hext|].
  destruct (import_names_and_identifies firstVisit "Sonata" ".PDF"
              "" pdf ["page1"; "page2"] 1000 1000 "0.25" "0.75" Hext)
    as (_ & _ & _ & Hm & Hid & _).
  - split; [reflexivity|]. intros [|[|i]] page Hi; cbn in Hi; try done;
      by injection Hi as <-.
  - split; [exact Hm|]. intros Heq. apply Hid in Heq as [_ Heq]. discriminate.
Defined.

(** Two imports of one file under one clock reading and one random draw:
    the library holds two items of one id. *)
Lemma import_twice_same_draw_same_id :
  let pdf := Pdf.mk 2 (λ i, inr (if decide (i = 1) then "page1" else "page2")) in
  let file := File.mk "Sonata.pdf" "application/pdf" (inr pdf) in
  let w1 := exec (handleFileSelect (Some file) true 1000 "0.5") firstVisit in
  let w2 := exec (handleFileSelect (Some file) true 1000 "0.5") w1 in
  ∃ item1 item2,
    allMusic (app w2) = [item1; item2] ∧
    ¬ SheetMusic.id item1 ≠ SheetMusic.id item2.
Proof.
  intros pdf file w1 w2.
  exists (SheetMusic.mk "file-1000-0.5" "Sonata" ["page1"; "page2"]),
         (SheetMusic.mk "file-1000-0.5" "Sonata" ["page1"; "page2"]).
  split; [reflexivity|]. intros Hne. by apply Hne.
Qed.

(** ** Hydration *)

Lemma Map_of_snoc {V} (entries : list (string * V)) (k : string) (v : V) :
  Map_of (entries ++ [(k, v)]) = <[k := v]> (Map_of entries).
Proof. unfold Map_of. by rewrite foldl_app. Qed.

Lemma musicMap_lookup (items : list SheetMusic.t) (id : string) :
  Map_of ((λ m, (SheetMusic.id m, m)) <$> items) !! id = lookupById items id.
Proof.
  unfold lookupById.
  induction items as [|m items IH] using rev_ind; [done|].
  rewrite fmap_app, filter_app. cbn [fmap list_fmap].
  rewrite Map_of_snoc, filter_singleton by exact items.
  destruct (decide (SheetMusic.id m = id)) as [Heq|Hne].
  - by rewrite Heq, lookup_insert_eq, last_snoc.
  - by rewrite lookup_insert_ne, app_nil_r.
Qed.

Lemma lookupById_Some (items : list SheetMusic.t) (id : string) (m : SheetMusic.t) :
  lookupById items id = Some m → SheetMusic.id m = id ∧ m ∈ items.
Proof.
  intros Hlast. apply last_Some_elem_of in Hlast.
  by apply list_elem_of_filter in Hlast.
Qed.

Lemma lookupById_None (items : list SheetMusic.t) (id : string) :
  lookupById items id = None ↔ ∀ m, m ∈ items → SheetMusic.id m ≠ id.
Proof.
  unfold lookupById. rewrite last_None. split.
  - intros Hnil m Hm Hid.
    by eapply (filter_nil_not_elem_of _ _ m Hnil).
  - intros Hall. induction items as [|m items IH]; [done|].
    rewrite filter_cons_False.
    + apply IH. intros m' Hm'. apply Hall. by right.
    + intros Heq. apply (Hall m); [by left|done].
Qed.

(** With unique item ids the lookup finds exactly the item of that id. *)
Lemma lookupById_unique (items : list SheetMusic.t) (m : SheetMusic.t) :
  NoDup (SheetMusic.id <$> items) → m ∈ items →
  lookupById items (SheetMusic.id m) = Some m.
Proof.
  intros Hnd Hm.
  destruct (lookupById items (SheetMusic.id m)) as [m'|] eqn:E.
  - apply lookupById_Some in E as [Hid Hm']. f_equal.
    apply list_elem_of_lookup in Hm as [i Hi].
    apply list_elem_of_lookup in Hm' as [j Hj].
    assert (i = j) as ->; [|congruence].
    eapply NoDup_lookup; [exact Hnd| |]; rewrite list_lookup_fmap.
    + by rewrite Hi.
    + rewrite Hj. cbn. by rewrite Hid.
  - exfalso. eapply lookupById_None; eauto.
Qed.

Lemma omap_ids_sublist (items : list SheetMusic.t) (ids : list string) :
  SheetMusic.id <$> omap (lookupById items) ids `sublist_of` ids.
Proof.
  induction ids as [|id ids IH]; [constructor|]. cbn.
  destruct (lookupById items id) as [m|] eqn:E; cbn.
  - apply lookupById_Some in E as [-> _]. by constructor.
  - by constructor.
Qed.

(** C4.  [hydrate] is, on every input, the function of the specification:
    each playlist keeps its id and name and its item ids are resolved by
    id in the library, in order, the unresolved ones dropped.  So the ids
    of the resolved items are a sublist of the item ids and every resolved
    item is in the library.  It is a function of its two arguments and
    returns new lists, and on empty collections it returns the empty list,
    resp. playlists without items. *)
Theorem hydrate_refines_spec (playlists : list Playlist.t)
    (items : list SheetMusic.t) :
  hydrate playlists items = hydrate_spec playlists items ∧
  Forall2 (λ pl hp,
      HydratedPlaylist.id hp = Playlist.id pl ∧
      HydratedPlaylist.name hp = Playlist.name pl ∧
      SheetMusic.id <$> HydratedPlaylist.items hp
        `sublist_of` Playlist.itemIds pl ∧
      HydratedPlaylist.items hp ⊆ items)
    playlists (hydrate playlists items) ∧
  hydrate [] items = [] ∧
  hydrate playlists []
    = (λ pl, HydratedPlaylist.mk (Playlist.id pl) (Playlist.name pl) [])
      <$> playlists.
Proof.
  assert (Hspec : hydrate playlists items = hydrate_spec playlists items).
  { unfold hydrate, hydrate_spec. apply list_fmap_ext. intros _ pl _.
    f_equal. apply list_omap_ext, Forall_Forall2_diag, Forall_forall.
    intros id _. apply musicMap_lookup. }
  split; [exact Hspec|]. split; [|split].
  - rewrite Hspec. unfold hydrate_spec. apply Forall2_fmap_r.
    apply Forall_Forall2_diag, Forall_forall. intros pl _. cbn.
    repeat split; [apply omap_ids_sublist|].
    intros m Hm. apply list_elem_of_omap in Hm as (id & _ & Hid).
    by apply lookupById_Some in Hid as [_ ?].
  - done.
  - unfold hydrate. apply list_fmap_ext. intros _ pl _. f_equal.
    induction (Playlist.itemIds pl) as [|id ids IH]; [done|]. cbn.
    by rewrite lookup_empty.
Qed.

(** ** Finding and replacing a playlist *)

Section Playlists.
Variable playlistId : string.
Implicit Types (pls : list Playlist.t) (pl updated : Playlist.t).

Lemma findPlaylist_Some pls pl :
  findPlaylist playlistId pls = Some pl →
  pl ∈ pls ∧ Playlist.id pl = playlistId.
Proof.
  intros Hfind. apply find_some in Hfind as [Hin Hid].
  split; [by apply list_elem_of_In|by apply bool_decide_eq_true in Hid].
Qed.

Lemma findPlaylist_None pls :
  findPlaylist playlistId pls = None ↔
  ∀ pl, pl ∈ pls → Playlist.id pl ≠ playlistId.
Proof.
  split.
  - intros Hfind pl Hin. apply list_elem_of_In in Hin.
    by apply (find_none _ _ Hfind), bool_decide_eq_false in Hin.
  - intros Hall. unfold findPlaylist.
    induction pls as [|p pls IH]; [done|]. cbn.
    rewrite bool_decide_eq_false_2 by (apply Hall; left).
    apply IH. intros pl Hin. apply Hall. by right.
Qed.

Lemma replacePlaylist_absent updated pls :
  (∀ pl, pl ∈ pls → Playlist.id pl ≠ playlistId) →
  replacePlaylist playlistId updated pls = pls.
Proof.
  intros Hall. unfold replacePlaylist.
  rewrite <- (list_fmap_id pls) at 2. apply list_fmap_ext.
  intros i pl Hi. apply list_elem_of_lookup_2 in Hi.
  by rewrite bool_decide_eq_false_2 by by apply Hall.
Qed.

Lemma findPlaylist_replace updated pls pl :
  Playlist.id updated = playlistId →
  findPlaylist playlistId pls = Some pl →
  findPlaylist playlistId (replacePlaylist playlistId updated pls)
    = Some updated.
Proof.
  intros Hid. unfold findPlaylist, replacePlaylist.
  induction pls as [|p pls IH]; [done|]. cbn.
  destruct (decide (Playlist.id p = playlistId)) as [Hp|Hp].
  - rewrite !(bool_decide_eq_true_2 (Playlist.id p = playlistId) Hp).
    by rewrite (bool_decide_eq_true_2 _ Hid).
  - by rewrite !(bool_decide_eq_false_2 (Playlist.id p = playlistId) Hp).
Qed.

Lemma replacePlaylist_twice updated updated' pls :
  Playlist.id updated = playlistId →
  replacePlaylist playlistId updated'
    (replacePlaylist playlistId updated pls)
  = replacePlaylist playlistId updated' pls.
Proof.
  intros Hid. unfold replacePlaylist. rewrite <- list_fmap_compose.
  apply list_fmap_ext. intros _ pl _. cbn.
  destruct (decide (Playlist.id pl = playlistId)) as [Hp|Hp].
  - rewrite !(bool_decide_eq_true_2 (Playlist.id pl = playlistId) Hp).
    by rewrite (bool_decide_eq_true_2 _ Hid).
  - by rewrite !(bool_decide_eq_false_2 (Playlist.id pl = playlistId) Hp).
Qed.

Lemma replacePlaylist_others updated pls :
  Playlist.id updated = playlistId →
  filter (λ pl, Playlist.id pl ≠ playlistId)
    (replacePlaylist playlistId updated pls)
  = filter (λ pl, Playlist.id pl ≠ playlistId) pls.
Proof.
  intros Hid. unfold replacePlaylist.
  induction pls as [|p pls IH]; [done|]. cbn [fmap list_fmap].
  destruct (decide (Playlist.id p = playlistId)) as [Hp|Hp].
  - rewrite (bool_decide_eq_true_2 _ Hp).
    rewrite !filter_cons_False by (intros Hne; by apply Hne). done.
  - rewrite (bool_decide_eq_false_2 _ Hp).
    rewrite !filter_cons_True by done. by f_equal.
Qed.

Lemma replacePlaylist_unique pls pl :
  NoDup (Playlist.id <$> pls) →
  findPlaylist playlistId pls = Some pl →
  replacePlaylist playlistId pl pls = pls.
Proof.
  induction pls as [|p pls IH]; [done|].
  unfold findPlaylist, replacePlaylist. cbn.
  intros Hnd Hfind. apply NoDup_cons in Hnd as [Hp Hnd].
  destruct (decide (Playlist.id p = playlistId)) as [Hid|Hid].
  - rewrite (bool_decide_eq_true_2 _ Hid) in Hfind |- *.
    injection Hfind as <-. f_equal. apply replacePlaylist_absent.
    intros q Hq Hqid. apply Hp, list_elem_of_fmap.
    exists q. split; [congruence|done].
  - rewrite (bool_decide_eq_false_2 _ Hid) in Hfind |- *.
    f_equal. by apply IH.
Qed.

Lemma replacePlaylist_Forall (P : Playlist.t → Prop) updated pls :
  P updated → Forall P pls →
  Forall P (replacePlaylist playlistId updated pls).
Proof.
  intros Hupd Hall. apply Forall_fmap. eapply Forall_impl; [exact Hall|].
  intros pl Hpl. cbn. by case_bool_decide.
Qed.
End Playlists.

Lemma filter_absent (fileId : string) (ids : list string) :
  fileId ∉ ids → filter (λ id, id ≠ fileId) ids = ids.
Proof.
  intros Hnotin. induction ids as [|id ids IH]; [done|].
  apply not_elem_of_cons in Hnotin as [Hne Hnotin].
  rewrite filter_cons_True by done. f_equal. by apply IH.
Qed.

Lemma occurrences_absent (x : string) (l : list string) :
  x ∉ l → occurrences x l = 0.
Proof.
  intros Hnotin. unfold occurrences. induction l as [|y l IH]; [done|].
  apply not_elem_of_cons in Hnotin as [Hne Hnotin].
  rewrite filter_cons_False by done. by apply IH.
Qed.

Lemma occurrences_NoDup (x : string) (l : list string) :
  NoDup l → x ∈ l → occurrences x l = 1.
Proof.
  unfold occurrences. induction 1 as [|y l Hy Hnd IH]; intros Hin.
  - by apply elem_of_nil in Hin.
  - destruct (decide (y = x)) as [->|Hne].
    + rewrite filter_cons_True by done. cbn. f_equal.
      by apply (occurrences_absent x l).
    + rewrite filter_cons_False by done. apply IH.
      apply elem_of_cons in Hin as [->|Hin]; done.
Qed.

(** ** Removing a member *)

Lemma removeFromPlaylist_absent (w : World) (playlistId fileId : string) :
  findPlaylist playlistId (playlists (app w)) = None →
  handleRemoveFromPlaylist playlistId fileId w = (inr tt, w, []).
Proof.
  intros Hfind. unfold handleRemoveFromPlaylist. run_handler.
  by rewrite Hfind.
Qed.

Lemma removeFromPlaylist_present (w : World) (playlistId fileId : string)
    (pl : Playlist.t) :
  findPlaylist playlistId (playlists (app w)) = Some pl →
  let updated :=
    Playlist.mk (Playlist.id pl) (Playlist.name pl)
      (filter (λ id, id ≠ fileId) (Playlist.itemIds pl)) in
  handleRemoveFromPlaylist playlistId fileId w
  = (inr tt,
     mkWorld
       (mkApp (view (app w)) (currentFile (app w)) (allMusic (app w))
          (replacePlaylist playlistId updated (playlists (app w)))
          (isModalOpen (app w)) (isLoading (app w)) (loadingMessage (app w)))
       (DB.mk (DB.sheetMusic (idb w))
          (<[playlistId := updated]> (DB.playlists (idb w)))),
     []).
Proof.
  intros Hfind. unfold handleRemoveFromPlaylist. run_handler.
  rewrite Hfind. apply findPlaylist_Some in Hfind as [_ <-]. done.
Qed.

(** C7.  Removing an item from a playlist.  Nothing is shown to the user.
    Without a playlist of that id nothing changes.  With one, the playlist
    of that id becomes the found one with every occurrence of the item id
    filtered out, in the cache and in the store, and the playlists of
    other ids are as before; if the item was not a member, that playlist
    is the found one, unchanged by value, and so is the whole world (given
    that the cached playlists have distinct ids and mirror the store).
    Removing a second time changes nothing. *)
Theorem removeFromPlaylist_spec (w : World) (playlistId fileId : string) :
  let w' := exec (handleRemoveFromPlaylist playlistId fileId) w in
  events (handleRemoveFromPlaylist playlistId fileId) w = [] ∧
  (findPlaylist playlistId (playlists (app w)) = None → w' = w) ∧
  (∀ pl, findPlaylist playlistId (playlists (app w)) = Some pl →
     let updated :=
       Playlist.mk (Playlist.id pl) (Playlist.name pl)
         (filter (λ id, id ≠ fileId) (Playlist.itemIds pl)) in
     findPlaylist playlistId (playlists (app w')) = Some updated ∧
     DB.playlists (idb w') !! playlistId = Some updated ∧
     (fileId ∉ Playlist.itemIds updated) ∧
     filter (λ p, Playlist.id p ≠ playlistId) (playlists (app w'))
       = filter (λ p, Playlist.id p ≠ playlistId) (playlists (app w)) ∧
     (fileId ∉ Playlist.itemIds pl → updated = pl) ∧
     (fileId ∉ Playlist.itemIds pl → uniquePlaylistIds w → mirrored w →
      w' = w)) ∧
  exec (handleRemoveFromPlaylist playlistId fileId) w' = w'.
Proof.
  intros w'. subst w'.
  destruct (findPlaylist playlistId (playlists (app w))) as [pl|] eqn:Hfind.
  - pose proof (removeFromPlaylist_present w playlistId fileId pl Hfind) as Hrun.
    cbn zeta in Hrun.
    pose proof (findPlaylist_Some _ _ _ Hfind) as [Hin Hid].
    set (updated := Playlist.mk _ _ _) in Hrun.
    assert (Hfind' : findPlaylist playlistId
                       (replacePlaylist playlistId updated (playlists (app w)))
                     = Some updated)
      by by eapply findPlaylist_replace.
    unfold exec, events. rewrite Hrun. cbn [fst snd].
    split; [done|]. split; [done|]. split.
    + intros ? [= <-]. cbn [app idb playlists DB.playlists]. fold updated.
      split; [done|]. split; [apply lookup_insert_eq|]. split; [|split].
      * cbn. rewrite list_elem_of_filter. by intros [? _].
      * by apply replacePlaylist_others.
      * assert (Hsame : fileId ∉ Playlist.itemIds pl → updated = pl).
        { intros Hnotin. subst updated.
          rewrite filter_absent by done. by destruct pl. }
        split; [exact Hsame|].
        intros Hnotin Hunique Hmirror. rewrite (Hsame Hnotin).
        rewrite replacePlaylist_unique by done.
        rewrite <- Hid, insert_id by by apply Hmirror.
        by destruct w as [[] []].
    + erewrite removeFromPlaylist_present by exact Hfind'.
      cbn [fst snd app idb view currentFile allMusic playlists isModalOpen
           isLoading loadingMessage DB.sheetMusic DB.playlists
           Playlist.id Playlist.name Playlist.itemIds].
      rewrite replacePlaylist_twice, insert_insert_eq by done.
      subst updated. cbn. rewrite list_filter_filter.
      do 4 f_equal; f_equal; apply list_filter_iff; tauto.
  - unfold exec, events.
    rewrite (removeFromPlaylist_absent w playlistId fileId Hfind).
    cbn [fst snd].
    by rewrite (removeFromPlaylist_absent w playlistId fileId Hfind).
Qed.

Lemma removeFromPlaylist_spec_witness :
  let practice := Playlist.mk "pl-2000" "Practice" ["file-1000-0.5"] in
  let w :=
    mkWorld (mkApp playlistsView None [] [practice] false false "")
      (DB.mk ∅ {[ "pl-2000" := practice ]}) in
  findPlaylist "pl-2000" (playlists (app w)) = Some practice ∧
  ("file-9" ∉ Playlist.itemIds practice) ∧
  uniquePlaylistIds w ∧ mirrored w ∧
  exec (handleRemoveFromPlaylist "pl-2000" "file-9") w = w.
Proof.
  intros practice w.
  assert (Hnotin : "file-9" ∉ Playlist.itemIds practice).
  { intros Hin. apply list_elem_of_singleton in Hin. discriminate. }
  assert (Hunique : uniquePlaylistIds w) by apply NoDup_singleton.
  assert (Hmirror : mirrored w).
  { intros pl Hin. apply list_elem_of_singleton in Hin. subst pl. reflexivity. }
  split; [reflexivity|]. split; [exact Hnotin|].
  split; [exact Hunique|]. split; [exact Hmirror|].
  destruct (removeFromPlaylist_spec w "pl-2000" "file-9") as (_ & _ & Hpresent & _).
  destruct (Hpresent practice eq_refl) as (_ & _ & _ & _ & _ & Hnoop).
  exact (Hnoop Hnotin Hunique Hmirror).
Defined.

(** ** Adding a member *)

Lemma addToPlaylist_needs_file (w : World) (playlistId : string) :
  currentFile (app w) = None → exec (handleAddToPlaylist playlistId) w = w.
Proof.
  intros Hnone. unfold handleAddToPlaylist. run_handler. by rewrite Hnone.
Qed.

(** C10.  The item to add is the open one, not an argument: when no item
    is open, adding to any playlist does nothing (no playlist is changed,
    nothing is stored, nothing is shown). *)
Theorem addToPlaylist_needs_current_file (w : World) (playlistId : string) :
  currentFile (app w) = None →
  handleAddToPlaylist playlistId w = (inr tt, w, []).
Proof.
  intros Hnone. unfold handleAddToPlaylist. run_handler.
  by rewrite Hnone.
Qed.

Lemma addToPlaylist_needs_current_file_witness :
  currentFile (app firstVisit) = None ∧
  handleAddToPlaylist "pl-1" firstVisit = (inr tt, firstVisit, []).
Proof.
  split; [reflexivity|].
  apply (addToPlaylist_needs_current_file firstVisit "pl-1"). reflexivity.
Defined.

Lemma fileSelect_playlists (w : World) (file : option File.t)
    (context : bool) (now : Z) (random : string) :
  let w' := exec (handleFileSelect file context now random) w in
  playlists (app w') = playlists (app w) ∧
  DB.playlists (idb w') = DB.playlists (idb w).
Proof.
  unfold handleFileSelect. destruct file as [file|]; [|done].
  destruct (negb _ && negb _); [done|].
  unfold try_catch_finally. run_handler.
  match goal with |- context [convert file context ?w0] =>
    destruct (convert_run file context w0 w0) as (r & w1 & w2 & E & _ & Hs & _)
  end.
  rewrite !E. destruct Hs as (Hdb & _ & Hpls & _). cbn in Hdb, Hpls.
  destruct r as [error|pages]; cbn; by rewrite ?Hdb, Hpls.
Qed.

Lemma addToPlaylist_present (w : World) (playlistId : string)
    (file : SheetMusic.t) (pl : Playlist.t) :
  currentFile (app w) = Some file →
  findPlaylist playlistId (playlists (app w)) = Some pl →
  SheetMusic.id file ∈ Playlist.itemIds pl →
  handleAddToPlaylist playlistId w
  = (inr tt, w,
     [Alert ("'" +:+ SheetMusic.name file +:+ "' is already in this playlist.")]).
Proof.
  intros Hfile Hfind Hin. unfold handleAddToPlaylist. run_handler.
  rewrite Hfile, Hfind. by rewrite bool_decide_eq_true_2.
Qed.

Lemma addToPlaylist_fresh (w : World) (playlistId : string)
    (file : SheetMusic.t) (pl : Playlist.t) :
  currentFile (app w) = Some file →
  findPlaylist playlistId (playlists (app w)) = Some pl →
  SheetMusic.id file ∉ Playlist.itemIds pl →
  let updated :=
    Playlist.mk (Playlist.id pl) (Playlist.name pl)
      (Playlist.itemIds pl ++ [SheetMusic.id file]) in
  handleAddToPlaylist playlistId w
  = (inr tt,
     mkWorld
       (mkApp (view (app w)) (currentFile (app w)) (allMusic (app w))
          (replacePlaylist playlistId updated (playlists (app w)))
          false (isLoading (app w)) (loadingMessage (app w)))
       (DB.mk (DB.sheetMusic (idb w))
          (<[playlistId := updated]> (DB.playlists (idb w)))),
     [Alert ("Added '" +:+ SheetMusic.name file +:+ "' to '"
             +:+ Playlist.name pl +:+ "'.")]).
Proof.
  intros Hfile Hfind Hnotin. unfold handleAddToPlaylist. run_handler.
  rewrite Hfile, Hfind. rewrite bool_decide_eq_false_2 by done.
  apply findPlaylist_Some in Hfind as [_ <-]. by rewrite <- Hfile.
Qed.

Lemma addToPlaylist_twice (w : World) (playlistId : string)
    (file : SheetMusic.t) (pl : Playlist.t) :
  currentFile (app w) = Some file →
  findPlaylist playlistId (playlists (app w)) = Some pl →
  NoDup (Playlist.itemIds pl) →
  let w1 := exec (handleAddToPlaylist playlistId) w in
  ∃ pl1,
    findPlaylist playlistId (playlists (app w1)) = Some pl1 ∧
    occurrences (SheetMusic.id file) (Playlist.itemIds pl1) = 1 ∧
    handleAddToPlaylist playlistId w1
    = (inr tt, w1,
       [Alert ("'" +:+ SheetMusic.name file
               +:+ "' is already in this playlist.")]).
Proof.
  intros Hfile Hfind Hnd w1. subst w1. unfold exec.
  destruct (decide (SheetMusic.id file ∈ Playlist.itemIds pl)) as [Hin|Hnotin].
  - rewrite (addToPlaylist_present w playlistId file pl) by done.
    cbn [fst snd]. exists pl. split; [done|]. split.
    + by apply occurrences_NoDup.
    + by apply (addToPlaylist_present w playlistId file pl).
  - rewrite (addToPlaylist_fresh w playlistId file pl) by done.
    cbn [fst snd]. set (updated := Playlist.mk _ _ _).
    pose proof (findPlaylist_Some _ _ _ Hfind) as [_ Hid].
    assert (Hfind' : findPlaylist playlistId
                       (replacePlaylist playlistId updated (playlists (app w)))
                     = Some updated)
      by by eapply findPlaylist_replace.
    exists updated. split; [done|]. split.
    + unfold occurrences. cbn. rewrite filter_app, length_app.
      rewrite (occurrences_absent _ _ Hnotin : length _ = 0).
      by rewrite filter_cons_True.
    + apply (addToPlaylist_present _ playlistId file updated); [done..|].
      cbn. apply elem_of_app. right. by left.
Qed.

(** *** The invariant of the sessions *)

Lemma firstVisit_noDuplicateMembers : noDuplicateMembers firstVisit.
Proof. split; [constructor|apply map_Forall_empty]. Qed.

Lemma step_noDuplicateMembers (w : World) (a : Action) :
  noDuplicateMembers w → noDuplicateMembers (step w a).
Proof.
  intros [Hcache Hstore].
  destruct a as [|file context now random|now name|confirmed id| |
                 |playlistId|playlistId fileId|file|fullscreenElement];
    cbn [step].
  - (* Mount *)
    split; [|exact Hstore].
    apply Forall_forall. intros pl Hin.
    apply getAll_elem_of in Hin as [k Hk]. by apply (Hstore k).
  - (* FileSelect *)
    destruct (fileSelect_playlists w file context now random) as [Hp Hd].
    unfold noDuplicateMembers. by rewrite Hp, Hd.
  - (* CreatePlaylist *)
    split; cbn.
    + apply Forall_app. split; [done|]. repeat constructor.
    + apply map_Forall_insert_2; [constructor|done].
  - (* DeletePlaylist *)
    destruct confirmed; [|done]. split; cbn.
    + apply Forall_forall. intros pl Hin.
      apply list_elem_of_filter in Hin as [_ Hin].
      by eapply Forall_forall in Hcache.
    + by apply map_Forall_delete.
  - (* OpenModal *) done.
  - (* CloseModal *) done.
  - (* AddToPlaylist *)
    destruct (currentFile (app w)) as [file|] eqn:Hfile;
      [|by rewrite (addToPlaylist_needs_file w playlistId Hfile)].
    destruct (findPlaylist playlistId (playlists (app w))) as [pl|] eqn:Hfind.
    2:{ unfold exec, handleAddToPlaylist. run_handler.
        by rewrite Hfile, Hfind. }
    assert (Hpl : NoDup (Playlist.itemIds pl)).
    { apply findPlaylist_Some in Hfind as [Hin _].
      by eapply Forall_forall in Hcache. }
    destruct (decide (SheetMusic.id file ∈ Playlist.itemIds pl)) as [Hin|Hnotin].
    + unfold exec. by rewrite (addToPlaylist_present w playlistId file pl).
    + unfold exec. rewrite (addToPlaylist_fresh w playlistId file pl) by done.
      assert (NoDup (Playlist.itemIds pl ++ [SheetMusic.id file])).
      { apply NoDup_app. repeat split; [done| |apply NoDup_singleton].
        intros x Hx ->%list_elem_of_singleton. done. }
      split; cbn.
      * by apply replacePlaylist_Forall.
      * by apply map_Forall_insert_2.
  - (* RemoveFromPlaylist *)
    destruct (findPlaylist playlistId (playlists (app w))) as [pl|] eqn:Hfind.
    2:{ unfold exec. by rewrite removeFromPlaylist_absent. }
    assert (Hpl : NoDup (Playlist.itemIds pl)).
    { apply findPlaylist_Some in Hfind as [Hin _].
      by eapply Forall_forall in Hcache. }
    unfold exec. rewrite (removeFromPlaylist_present w _ fileId pl) by done.
    split; cbn.
    + apply replacePlaylist_Forall; [|done]. by apply NoDup_filter.
    + apply map_Forall_insert_2; [|done]. by apply NoDup_filter.
  - (* SelectFileFromPlaylist *) done.
  - (* CloseViewer *) by destruct fullscreenElement.
Qed.

Lemma run_noDuplicateMembers (actions : list Action) (w : World) :
  noDuplicateMembers w → noDuplicateMembers (run w actions).
Proof.
  revert w. induction actions as [|a actions IH]; intros w Hw; [done|].
  cbn. by apply IH, step_noDuplicateMembers.
Qed.

(** C1.  In every state a session can reach from a first visit, no
    playlist, cached or stored, lists an item twice.  And with an item open
    and a playlist of the given id present, after one add the playlist of
    that id lists the item exactly once and a second add of the same pair
    changes nothing and tells the user the item is already in the
    playlist (not that it was added). *)
Theorem addToPlaylist_never_duplicates (actions : list Action) :
  let w := run firstVisit actions in
  noDuplicateMembers w ∧
  ∀ playlistId file pl,
    currentFile (app w) = Some file →
    findPlaylist playlistId (playlists (app w)) = Some pl →
    let w1 := exec (handleAddToPlaylist playlistId) w in
    ∃ pl1,
      findPlaylist playlistId (playlists (app w1)) = Some pl1 ∧
      occurrences (SheetMusic.id file) (Playlist.itemIds pl1) = 1 ∧
      handleAddToPlaylist playlistId w1
      = (inr tt, w1,
         [Alert ("'" +:+ SheetMusic.name file
                 +:+ "' is already in this playlist.")]).
Proof.
  intros w.
  assert (Hinv : noDuplicateMembers w)
    by apply run_noDuplicateMembers, firstVisit_noDuplicateMembers.
  split; [exact Hinv|].
  intros playlistId file pl Hfile Hfind.
  apply (addToPlaylist_twice w playlistId file pl Hfile Hfind).
  apply findPlaylist_Some in Hfind as [Hin _].
  destruct Hinv as [Hcache _]. by eapply Forall_forall in Hcache.
Qed.

Lemma addToPlaylist_never_duplicates_witness :
  let pdf := Pdf.mk 1 (λ _, inr "page1") in
  let file := File.mk "Sonata.pdf" "application/pdf" (inr pdf) in
  let w :=
    run firstVisit
      [Mount; FileSelect (Some file) true 1000 "0.5";
       CreatePlaylist 2000 "Practice"] in
  let w1 := exec (handleAddToPlaylist "pl-2000") w in
  handleAddToPlaylist "pl-2000" w1
  = (inr tt, w1, [Alert "'Sonata' is already in this playlist."]).
Proof.
  intros pdf file w w1.
  destruct (addToPlaylist_never_duplicates
              [Mount; FileSelect (Some file) true 1000 "0.5";
               CreatePlaylist 2000 "Practice"]) as [_ Htwice].
  destruct (Htwice "pl-2000"
              (SheetMusic.mk "file-1000-0.5" "Sonata" ["page1"])
              (Playlist.mk "pl-2000" "Practice" []) eq_refl eq_refl)
    as (pl1 & _ & _ & Hsecond).
  exact Hsecond.
Defined.

(** ** The cache mirrors the store *)

Lemma replacePlaylist_ids (playlistId : string) (updated : Playlist.t)
    (pls : list Playlist.t) :
  Playlist.id updated = playlistId →
  Playlist.id <$> replacePlaylist playlistId updated pls = Playlist.id <$> pls.
Proof.
  intros Hid. unfold replacePlaylist. rewrite <- list_fmap_compose.
  apply list_fmap_ext. intros _ pl _. cbn. case_bool_decide; congruence.
Qed.

Lemma replacePlaylist_elem_of (playlistId : string) (updated pl : Playlist.t)
    (pls : list Playlist.t) :
  pl ∈ replacePlaylist playlistId updated pls →
  pl = updated ∨ (pl ∈ pls ∧ Playlist.id pl ≠ playlistId).
Proof.
  intros (p & -> & Hp)%list_elem_of_fmap. case_bool_decide; auto.
Qed.

Lemma replace_consistent (w : World) (playlistId : string)
    (updated : Playlist.t) (v : View) (f : option SheetMusic.t)
    (m : list SheetMusic.t) (b1 b2 : bool) (msg : string)
    (items : gmap string SheetMusic.t) :
  Playlist.id updated = playlistId → consistent w →
  consistent
    (mkWorld
       (mkApp v f m (replacePlaylist playlistId updated (playlists (app w)))
          b1 b2 msg)
       (DB.mk items (<[playlistId := updated]> (DB.playlists (idb w))))).
Proof.
  intros Hid (Hkeyed & Hunique & Hmirror). split; [|split].
  - intros k pl. cbn. rewrite lookup_insert.
    case_decide; [by intros [= <-]; subst|apply Hkeyed].
  - unfold uniquePlaylistIds. cbn. by rewrite replacePlaylist_ids.
  - intros pl Hin. cbn in *.
    apply replacePlaylist_elem_of in Hin as [->|[Hin Hne]].
    + rewrite Hid. apply lookup_insert_eq.
    + rewrite lookup_insert_ne by done. by apply Hmirror.
Qed.

Lemma mount_consistent (w : World) : keyedById w → consistent (mount w).
Proof.
  intros Hkeyed. split; [exact Hkeyed|]. split.
  - unfold uniquePlaylistIds.
    change (playlists (app (mount w)))
      with (DB.getAll (DB.playlists (idb w))).
    unfold DB.getAll.
    assert (Hids : Playlist.id <$> (merge_sort DB.byKey
                      (map_to_list (DB.playlists (idb w)))).*2
                   = (merge_sort DB.byKey
                        (map_to_list (DB.playlists (idb w)))).*1).
    { rewrite <- list_fmap_compose. apply list_fmap_ext.
      intros i [k pl] Hi. cbn. apply Hkeyed.
      apply list_elem_of_lookup_2 in Hi.
      rewrite merge_sort_Permutation in Hi.
      by apply elem_of_map_to_list in Hi. }
    rewrite Hids, merge_sort_Permutation. apply NoDup_fst_map_to_list.
  - intros pl Hin.
    change (playlists (app (mount w)))
      with (DB.getAll (DB.playlists (idb w))) in Hin.
    apply getAll_elem_of in Hin as [k Hk].
    change (idb (mount w)) with (idb w).
    by rewrite (Hkeyed k pl Hk).
Qed.

Lemma step_consistent (w : World) (a : Action) :
  consistent w → freshIds w [a] → consistent (step w a).
Proof.
  intros Hcons [Hfresh _]. pose proof Hcons as (Hkeyed & Hunique & Hmirror).
  destruct a as [|file context now random|now name|confirmed id| |
                 |playlistId|playlistId fileId|file|fullscreenElement];
    cbn [step].
  - by apply mount_consistent.
  - destruct (fileSelect_playlists w file context now random) as [Hp Hd].
    unfold consistent, keyedById, uniquePlaylistIds, mirrored.
    by rewrite Hp, Hd.
  - split; [|split].
    + intros k pl. cbn. rewrite lookup_insert.
      case_decide; [by intros [= <-]|apply Hkeyed].
    + unfold uniquePlaylistIds. cbn. rewrite fmap_app. apply NoDup_app.
      repeat split; [done| |apply NoDup_singleton].
      intros x Hx ->%list_elem_of_singleton. done.
    + intros pl Hin. cbn in *. apply elem_of_app in Hin as [Hin|Hin].
      * rewrite lookup_insert_ne; [by apply Hmirror|].
        intros Heq. apply Hfresh, list_elem_of_fmap. by exists pl.
      * apply list_elem_of_singleton in Hin as ->. apply lookup_insert_eq.
  - destruct confirmed; [|done]. split; [|split].
    + intros k pl. cbn. rewrite lookup_delete.
      case_decide; [done|apply Hkeyed].
    + unfold uniquePlaylistIds. cbn.
      eapply sublist_NoDup; [exact Hunique|apply fmap_sublist, sublist_filter].
    + intros pl Hin. cbn in *.
      apply list_elem_of_filter in Hin as [Hne Hin].
      rewrite lookup_delete_ne by done. by apply Hmirror.
  - done.
  - done.
  - destruct (currentFile (app w)) as [file|] eqn:Hfile;
      [|by rewrite (addToPlaylist_needs_file w playlistId Hfile)].
    destruct (findPlaylist playlistId (playlists (app w))) as [pl|] eqn:Hfind.
    2:{ unfold exec, handleAddToPlaylist. run_handler.
        by rewrite Hfile, Hfind. }
    destruct (decide (SheetMusic.id file ∈ Playlist.itemIds pl)) as [Hin|Hnotin].
    + unfold exec. by rewrite (addToPlaylist_present w playlistId file pl).
    + unfold exec. rewrite (addToPlaylist_fresh w playlistId file pl) by done.
      cbn [fst snd]. apply replace_consistent; [|done].
      by apply findPlaylist_Some in Hfind as [_ ?].
  - destruct (findPlaylist playlistId (playlists (app w))) as [pl|] eqn:Hfind.
    2:{ unfold exec. by rewrite removeFromPlaylist_absent. }
    unfold exec. rewrite (removeFromPlaylist_present w _ fileId pl) by done.
    cbn [fst snd]. apply replace_consistent; [|done].
    by apply findPlaylist_Some in Hfind as [_ ?].
  - done.
  - by destruct fullscreenElement.
Qed.

Lemma firstVisit_consistent : consistent firstVisit.
Proof. split; [done|]. split; [constructor|]. by intros pl Hin%elem_of_nil. Qed.

(** In a session that creates every playlist under a fresh id, the cached
    playlists have distinct ids and mirror the store. *)
Lemma run_consistent (actions : list Action) (w : World) :
  consistent w → freshIds w actions → consistent (run w actions).
Proof.
  revert w. induction actions as [|a actions IH]; intros w Hw Hfresh; [done|].
  destruct Hfresh as [Ha Hfresh]. cbn [run foldl].
  apply IH; [|done]. by apply step_consistent.
Qed.

(** A clock reading not used before gives a fresh id. *)
Lemma fresh_clock_fresh_id (now : Z) (pls : list Playlist.t) :
  (∀ pl, pl ∈ pls → Playlist.id pl ≠ "pl-" +:+ Number_toString now) →
  "pl-" +:+ Number_toString now ∉ Playlist.id <$> pls.
Proof.
  intros Hall (pl & Heq & Hin)%list_elem_of_fmap. by apply (Hall pl).
Qed.

(** ** Ids from the clock *)

(** C2.  The id of a playlist is built from the clock alone.  Two playlists
    created under the same clock reading get the same id: the cache then
    holds two playlists of one id and the store, keyed by id, holds only
    the second one. *)
Theorem playlist_ids_collide_within_a_millisecond (w : World) (now : Z)
    (name1 name2 : string) :
  let id := "pl-" +:+ Number_toString now in
  let w2 := exec (handleCreatePlaylist now name2)
              (exec (handleCreatePlaylist now name1) w) in
  playlists (app w2)
    = playlists (app w) ++ [Playlist.mk id name1 []; Playlist.mk id name2 []] ∧
  DB.playlists (idb w2) !! id = Some (Playlist.mk id name2 []) ∧
  ¬ uniquePlaylistIds w2.
Proof.
  intros id w2.
  assert (Hpls : playlists (app w2)
            = playlists (app w)
              ++ [Playlist.mk id name1 []; Playlist.mk id name2 []]).
  { subst w2. cbn. by rewrite <- app_assoc. }
  split; [exact Hpls|]. split.
  - subst w2. cbn. apply lookup_insert_eq.
  - unfold uniquePlaylistIds. rewrite Hpls, fmap_app. cbn.
    intros (_ & _ & Hnd)%NoDup_app.
    apply NoDup_cons in Hnd as [Hnotin _]. apply Hnotin. by left.
Qed.

(** * Further properties *)

(** ** Import *)

Lemma fileSelect_rejected (w : World) (file : File.t) (context : bool)
    (now : Z) (random : string) :
  looksLikePdf file = false →
  handleFileSelect (Some file) context now random w
  = (inr tt, w, [Alert "Please select a valid PDF file."]).
Proof.
  intros Hno. unfold handleFileSelect.
  unfold looksLikePdf in Hno. by rewrite <- negb_orb, Hno.
Qed.

(** What an import leaves behind, in every case. *)
Lemma fileSelect_outcome (w : World) (file : File.t) (context : bool)
    (now : Z) (random : string) :
  looksLikePdf file = true →
  let w' := exec (handleFileSelect (Some file) context now random) w in
  result (handleFileSelect (Some file) context now random) w = inr tt ∧
  isLoading (app w') = false ∧
  playlists (app w') = playlists (app w) ∧
  DB.playlists (idb w') = DB.playlists (idb w) ∧
  ((allMusic (app w') = allMusic (app w) ∧
    DB.sheetMusic (idb w') = DB.sheetMusic (idb w) ∧
    currentFile (app w') = currentFile (app w) ∧
    view (app w') = view (app w)) ∨
   (∃ item, allMusic (app w') = allMusic (app w) ++ [item] ∧
      DB.sheetMusic (idb w')
        = <[SheetMusic.id item := item]> (DB.sheetMusic (idb w)) ∧
      currentFile (app w') = Some item ∧
      view (app w') = viewerView)).
Proof.
  intros Hpdf. unfold handleFileSelect.
  unfold looksLikePdf in Hpdf. rewrite <- negb_orb, Hpdf. cbn [negb].
  unfold try_catch_finally. run_handler.
  match goal with |- context [convert file context ?w0] =>
    destruct (convert_run file context w0 w0) as (r & w1 & w2 & E & _ & Hs & _)
  end.
  rewrite !E. destruct Hs as (Hdb & Hmusic & Hpls & Hfile & Hview & _).
  cbn in Hdb, Hmusic, Hpls, Hfile, Hview.
  destruct r as [error|pages]; cbn.
  - rewrite Hdb, Hmusic, Hpls, Hfile, Hview. repeat split; try done. by left.
  - rewrite Hdb, Hmusic, Hpls. repeat split; try done. right. by eexists.
Qed.




(** X2.  An import of a file that passes the check never throws and ends
    with the loading indicator off, whether the conversion succeeded or
    not. *)
Theorem fileSelect_completes (w : World) (file : File.t) (context : bool)
    (now : Z) (random : string) :
  looksLikePdf file = true →
  result (handleFileSelect (Some file) context now random) w = inr tt ∧
  isLoading (app (exec (handleFileSelect (Some file) context now random) w))
    = false.
Proof.
  intros Hpdf.
  destruct (fileSelect_outcome w file context now random Hpdf) as (? & ? & _).
  done.
Qed.

Lemma fileSelect_completes_witness :
  let file := File.mk "Broken.pdf" "" (inl "Invalid PDF structure.") in
  looksLikePdf file = true ∧
  result (handleFileSelect (Some file) true 1000 "0.5") firstVisit = inr tt ∧
  isLoading (app (exec (handleFileSelect (Some file) true 1000 "0.5") firstVisit))
    = false.
Proof.
  intros file. split; [reflexivity|].
  apply (fileSelect_completes firstVisit file true 1000 "0.5"). reflexivity.
Defined.

(** X3.  An import never changes a playlist, cached or stored, and never
    drops or reorders an item of the library: the cached library after it
    starts with the cached library before it. *)
Theorem fileSelect_keeps_playlists_and_items (w : World)
    (file : option File.t) (context : bool) (now : Z) (random : string) :
  let w' := exec (handleFileSelect file context now random) w in
  playlists (app w') = playlists (app w) ∧
  DB.playlists (idb w') = DB.playlists (idb w) ∧
  allMusic (app w) `prefix_of` allMusic (app w').
Proof.
  destruct file as [file|]; [|done].
  destruct (looksLikePdf file) eqn:Hpdf.
  - destruct (fileSelect_outcome w file context now random Hpdf)
      as (_ & _ & Hpls & Hdb & [(Hmusic & _)|(item & Hmusic & _)]);
      cbn zeta; rewrite Hpls, Hdb, Hmusic; repeat split; try done.
    by apply prefix_app_r.
  - unfold exec.
    by rewrite (fileSelect_rejected w file context now random Hpdf).
Qed.

Lemma renderPages_first_failure (pdf : Pdf.t) (error : string)
    (k remaining i : nat) (pages : list string) (w : World) :
  i ≤ k < i + remaining →
  (∀ j, i ≤ j < k → ∃ page, Pdf.renderPage pdf j = inr page) →
  Pdf.renderPage pdf k = inl error →
  result (renderPages pdf i remaining pages) w = inl error ∧
  loadingMessage (app (exec (renderPages pdf i remaining pages) w))
    = "Rendering page " +:+ Number_toString (Z.of_nat k) +:+ " of "
      +:+ Number_toString (Z.of_nat (Pdf.numPages pdf)) +:+ "...".
Proof.
  revert i pages w. induction remaining as [|n IH]; intros i pages w Hk Hok Hfail;
    [lia|].
  cbn [renderPages]. destruct (decide (i = k)) as [->|Hne].
  - run_handler. by rewrite Hfail.
  - destruct (Hok i) as [page Hpage]; [lia|].
    unfold exec, result, bind in *. unfold setLoadingMessage, setState at 1 2.
    rewrite Hpage.
    match goal with |- context [renderPages pdf (S i) n ?p ?w0] =>
      specialize (IH (S i) p w0) end.
    destruct IH as [IH1 IH2]; [lia|intros j Hj; apply Hok; lia|done|].
    destruct (renderPages pdf (S i) n _ _) as [[r w'] ev]. cbn in *.
    by subst r.
Qed.

(** X4.  When the document loads, a canvas context is there, the pages
    before page [k] render and page [k] fails, the conversion throws the
    error of page [k] and the last progress message names page [k]. *)
Theorem convert_stops_at_first_failing_page (w : World) (file : File.t)
    (pdf : Pdf.t) (k : nat) (error : string) :
  File.document file = inr pdf →
  1 ≤ k ≤ Pdf.numPages pdf →
  (∀ j, 1 ≤ j < k → ∃ page, Pdf.renderPage pdf j = inr page) →
  Pdf.renderPage pdf k = inl error →
  result (convert file true) w = inl error ∧
  loadingMessage (app (exec (convert file true) w))
    = "Rendering page " +:+ Number_toString (Z.of_nat k) +:+ " of "
      +:+ Number_toString (Z.of_nat (Pdf.numPages pdf)) +:+ "...".
Proof.
  intros Hdoc Hk Hok Hfail. unfold convert. rewrite Hdoc.
  destruct (renderPages_first_failure pdf error k (Pdf.numPages pdf) 1 [] w)
    as [Hr Hm]; [lia|done|done|].
  unfold exec, result, bind, ret in *.
  destruct (renderPages pdf 1 (Pdf.numPages pdf) [] w) as [[r w'] ev].
  cbn in *. by subst r.
Qed.

Lemma convert_stops_at_first_failing_page_witness :
  let pdf :=
    Pdf.mk 3 (λ i, if decide (i = 2) then inl "Invalid page."
                   else inr "data:image/png;base64,AAAA") in
  let file := File.mk "Etude.pdf" "application/pdf" (inr pdf) in
  result (convert file true) firstVisit = inl "Invalid page." ∧
  loadingMessage (app (exec (convert file true) firstVisit))
    = "Rendering page 2 of 3...".
Proof.
  intros pdf file.
  apply (convert_stops_at_first_failing_page firstVisit file pdf 2
           "Invalid page.").
  - reflexivity.
  - cbn. lia.
  - intros j Hj. assert (j = 1) as -> by lia. by eexists.
  - reflexivity.
Defined.

(** X5.  A successful import survives a reload: the item is stored under
    its id and is in the library again after the page is loaded anew,
    while the reload forgets which item was open. *)
Theorem import_survives_reload (w : World) (file : File.t) (pdf : Pdf.t)
    (pages : list string) (now : Z) (random : string) :
  looksLikePdf file = true → File.document file = inr pdf →
  rendersTo pdf pages →
  let item :=
    SheetMusic.mk ("file-" +:+ Number_toString now +:+ "-" +:+ random)
      (replace_pdf_suffix (File.name file)) pages in
  let w' := mount (exec (handleFileSelect (Some file) true now random) w) in
  item ∈ allMusic (app w') ∧
  currentFile (app w') = None ∧
  view (app w') = playlistsView.
Proof.
  intros Hpdf Hdoc Hrender item w'.
  destruct (import_ok w file pdf pages now random Hpdf Hdoc Hrender)
    as (_ & _ & _ & _ & Hstore & _).
  split; [|done].
  change (allMusic (app w'))
    with (DB.getAll (DB.sheetMusic
            (idb (exec (handleFileSelect (Some file) true now random) w)))).
  apply getAll_elem_of. exists (SheetMusic.id item).
  rewrite Hstore. apply lookup_insert_eq.
Qed.

Lemma import_survives_reload_witness :
  let pdf := Pdf.mk 1 (λ _, inr "page1") in
  let file := File.mk "Sonata.pdf" "application/pdf" (inr pdf) in
  let w' := mount (exec (handleFileSelect (Some file) true 1000 "0.5") firstVisit) in
  SheetMusic.mk "file-1000-0.5" "Sonata" ["page1"] ∈ allMusic (app w').
Proof.
  intros pdf file w'.
  destruct (import_survives_reload firstVisit file pdf ["page1"] 1000 "0.5")
    as (Hin & _).
  - reflexivity.
  - reflexivity.
  - split; [reflexivity|]. intros [|i] page Hi; cbn in Hi; [|done].
    by injection Hi as <-.
  - exact Hin.
Defined.

(** ** Sessions *)

(** X6.  In every state a session can reach, the viewer screen is shown
    only while an item is open. *)
Theorem viewer_shows_an_open_item (actions : list Action) :
  let w := run firstVisit actions in
  view (app w) = viewerView → is_Some (currentFile (app w)).
Proof.
  cbn zeta. unfold run.
  induction actions as [|a actions IH] using rev_ind; [done|].
  rewrite foldl_app. cbn [foldl]. set (w := foldl step firstVisit actions) in *.
  destruct a as [|[file|] context now random|now name|[] id| |
                 |playlistId|playlistId fileId|file|[]]; cbn [step]; try done.
  - destruct (looksLikePdf file) eqn:Hpdf.
    + destruct (fileSelect_outcome w file context now random Hpdf)
        as (_ & _ & _ & _ & [(_ & _ & Hfile & Hview)|(item & _ & _ & Hfile & _)]).
      * rewrite Hfile, Hview. exact IH.
      * rewrite Hfile. by eexists.
    + unfold exec.
      rewrite (fileSelect_rejected w file context now random Hpdf). exact IH.
  - unfold exec, handleAddToPlaylist. run_handler.
    destruct (currentFile (app w)) as [file|] eqn:Hfile;
      [|cbn; by rewrite Hfile].
    destruct (findPlaylist _ _) as [pl|]; [|cbn; by rewrite Hfile].
    case_bool_decide; cbn; [by rewrite Hfile|].
    rewrite Hfile. intros _. by eexists.
  - unfold exec, handleRemoveFromPlaylist. run_handler.
    destruct (findPlaylist _ _) as [pl|]; exact IH.
Qed.

Lemma viewer_shows_an_open_item_witness :
  let pdf := Pdf.mk 1 (λ _, inr "page1") in
  let file := File.mk "Sonata.pdf" "application/pdf" (inr pdf) in
  let w := run firstVisit [Mount; FileSelect (Some file) true 1000 "0.5"] in
  view (app w) = viewerView ∧ is_Some (currentFile (app w)).
Proof.
  intros pdf file w. split; [reflexivity|].
  apply (viewer_shows_an_open_item
           [Mount; FileSelect (Some file) true 1000 "0.5"]).
  reflexivity.
Defined.

Lemma step_keyedById (w : World) (a : Action) :
  keyedById w → keyedById (step w a).
Proof.
  intros Hkeyed.
  destruct a as [|file context now random|now name|[] id| |
                 |playlistId|playlistId fileId|file|[]]; cbn [step]; try done.
  - destruct (fileSelect_playlists w file context now random) as [_ Hdb].
    unfold keyedById. by rewrite Hdb.
  - intros k pl. cbn. rewrite lookup_insert.
    case_decide; [by intros [= <-]|apply Hkeyed].
  - intros k pl. cbn. rewrite lookup_delete.
    case_decide; [done|apply Hkeyed].
  - unfold exec, handleAddToPlaylist. run_handler.
    destruct (currentFile (app w)) as [file|]; [|done].
    destruct (findPlaylist _ _) as [pl|] eqn:Hfind; [|done].
    case_bool_decide; [done|]. intros k p. cbn. rewrite lookup_insert.
    case_decide; [by intros [= <-]|apply Hkeyed].
  - unfold exec, handleRemoveFromPlaylist. run_handler.
    destruct (findPlaylist _ _) as [pl|] eqn:Hfind; [|done].
    intros k p. cbn. rewrite lookup_insert.
    case_decide; [by intros [= <-]|apply Hkeyed].
Qed.

Lemma run_keyedById (actions : list Action) (w : World) :
  keyedById w → keyedById (run w actions).
Proof.
  revert w. induction actions as [|a actions IH]; intros w Hw; [done|].
  cbn. by apply IH, step_keyedById.
Qed.

(** X7.  A reload repairs the cache: whatever the session did before, the
    playlists loaded from the store have pairwise distinct ids and each is
    the record stored under its id. *)
Theorem reload_gives_a_consistent_cache (actions : list Action) :
  consistent (mount (run firstVisit actions)).
Proof. apply mount_consistent, run_keyedById. done. Qed.

(** X8.  In a session that creates every playlist under an id no cached
    playlist carries, the cache keeps mirroring the store: distinct ids,
    and every cached playlist is the record stored under its id. *)
Theorem fresh_ids_keep_cache_and_store_in_step (actions : list Action) :
  freshIds firstVisit actions → consistent (run firstVisit actions).
Proof. apply run_consistent, firstVisit_consistent. Qed.

Lemma fresh_ids_keep_cache_and_store_in_step_witness :
  let actions := [Mount; CreatePlaylist 2000 "Practice";
                  CreatePlaylist 3000 "Recital"; DeletePlaylist true "pl-2000"] in
  freshIds firstVisit actions ∧ consistent (run firstVisit actions).
Proof.
  intros actions.
  assert (Hfresh : freshIds firstVisit actions).
  { repeat split.
    - apply not_elem_of_nil.
    - intros Hin. apply list_elem_of_singleton in Hin. discriminate. }
  split; [exact Hfresh|].
  exact (fresh_ids_keep_cache_and_store_in_step actions Hfresh).
Defined.

(** ** Creating and deleting playlists *)

Lemma truthy_nonempty (s : string) : s ≠ "" → truthy s = true.
Proof. by destruct s. Qed.

(** X9.  Creating a playlist from the view with a name that is not blank
    appends a playlist with the trimmed name and no members to the cache,
    stores it under its id, shows nothing, and clears the input field
    (the expanded playlists stay as they are). *)
Theorem create_from_view (w : World) (st : PlaylistView.state) (now : Z) :
  trim (PlaylistView.newPlaylistName st) ≠ "" →
  let created :=
    Playlist.mk ("pl-" +:+ Number_toString now)
      (trim (PlaylistView.newPlaylistName st)) [] in
  let run := PlaylistView.handleCreatePlaylist (handleCreatePlaylist now) st in
  result run w = inr (PlaylistView.mk "" (PlaylistView.expandedPlaylists st)) ∧
  events run w = [] ∧
  playlists (app (exec run w)) = playlists (app w) ++ [created] ∧
  DB.playlists (idb (exec run w))
    = <[Playlist.id created := created]> (DB.playlists (idb w)) ∧
  allMusic (app (exec run w)) = allMusic (app w) ∧
  DB.sheetMusic (idb (exec run w)) = DB.sheetMusic (idb w).
Proof.
  intros Hname created run. subst run.
  unfold PlaylistView.handleCreatePlaylist.
  by rewrite (truthy_nonempty _ Hname).
Qed.

Lemma create_from_view_witness :
  let st := PlaylistView.mk "  Practice " ∅ in
  let run := PlaylistView.handleCreatePlaylist (handleCreatePlaylist 2000) st in
  trim "  Practice " ≠ "" ∧
  playlists (app (exec run firstVisit))
    = [Playlist.mk "pl-2000" "Practice" []].
Proof.
  intros st run. split; [discriminate|].
  destruct (create_from_view firstVisit st 2000) as (_ & _ & Hpls & _).
  - discriminate.
  - exact Hpls.
Defined.

Lemma filter_ids_absent (id : string) (pls : list Playlist.t) :
  (∀ pl, pl ∈ pls → Playlist.id pl ≠ id) →
  filter (λ pl, Playlist.id pl ≠ id) pls = pls.
Proof.
  intros Hall. induction pls as [|p pls IH]; [done|].
  rewrite filter_cons_True by (apply Hall; left).
  f_equal. apply IH. intros pl Hin. apply Hall. by right.
Qed.

(** X10.  Deleting an id that no cached playlist carries and that is not a
    key of the store changes nothing, confirmed or not. *)
Theorem delete_unknown_playlist (w : World) (confirmed : bool) (id : string) :
  (∀ pl, pl ∈ playlists (app w) → Playlist.id pl ≠ id) →
  DB.playlists (idb w) !! id = None →
  handleDeletePlaylist confirmed id w = (inr tt, w, []).
Proof.
  intros Hcache Hstore. destruct confirmed; [|done].
  unfold handleDeletePlaylist. run_handler. unfold DB.deletePlaylist.
  rewrite filter_ids_absent, delete_id by done.
  by destruct w as [[] []].
Qed.

Lemma delete_unknown_playlist_witness :
  handleDeletePlaylist true "pl-1" firstVisit = (inr tt, firstVisit, []).
Proof.
  apply (delete_unknown_playlist firstVisit true "pl-1").
  - intros pl Hin. by apply elem_of_nil in Hin.
  - reflexivity.
Defined.

(** X11.  Creating a playlist under a fresh id and deleting it again gives
    back the world as it was. *)
Theorem create_then_delete (w : World) (now : Z) (name : string) :
  let id := "pl-" +:+ Number_toString now in
  (∀ pl, pl ∈ playlists (app w) → Playlist.id pl ≠ id) →
  DB.playlists (idb w) !! id = None →
  exec (handleDeletePlaylist true id) (exec (handleCreatePlaylist now name) w)
  = w.
Proof.
  intros id Hcache Hstore. unfold handleDeletePlaylist, handleCreatePlaylist.
  run_handler. unfold DB.deletePlaylist, DB.savePlaylist. cbn.
  rewrite filter_app, filter_ids_absent by done.
  rewrite filter_cons_False, filter_nil, app_nil_r by (intros Hne; by apply Hne).
  rewrite delete_insert_eq, delete_id by done.
  by destruct w as [[] []].
Qed.

Lemma create_then_delete_witness :
  exec (handleDeletePlaylist true "pl-2000")
    (exec (handleCreatePlaylist 2000 "Practice") firstVisit)
  = firstVisit.
Proof.
  apply (create_then_delete firstVisit 2000 "Practice").
  - intros pl Hin. by apply elem_of_nil in Hin.
  - reflexivity.
Defined.

(** ** Membership *)

(** X12.  Adding the open item to a playlist that does not list it yet puts
    its id at the end of the members, the earlier ones staying in order,
    in the cache and in the store; the selection modal is closed and the
    user is told which item went into which playlist. *)
Theorem add_appends_at_the_end (w : World) (playlistId : string)
    (file : SheetMusic.t) (pl : Playlist.t) :
  currentFile (app w) = Some file →
  findPlaylist playlistId (playlists (app w)) = Some pl →
  SheetMusic.id file ∉ Playlist.itemIds pl →
  let w' := exec (handleAddToPlaylist playlistId) w in
  let updated :=
    Playlist.mk (Playlist.id pl) (Playlist.name pl)
      (Playlist.itemIds pl ++ [SheetMusic.id file]) in
  findPlaylist playlistId (playlists (app w')) = Some updated ∧
  DB.playlists (idb w') !! playlistId = Some updated ∧
  isModalOpen (app w') = false ∧
  events (handleAddToPlaylist playlistId) w
  = [Alert ("Added '" +:+ SheetMusic.name file +:+ "' to '"
            +:+ Playlist.name pl +:+ "'.")].
Proof.
  intros Hfile Hfind Hnotin. cbn zeta. unfold exec, events.
  rewrite (addToPlaylist_fresh w playlistId file pl) by done.
  cbn [fst snd app idb playlists isModalOpen DB.playlists].
  pose proof (findPlaylist_Some _ _ _ Hfind) as [_ Hid].
  split; [by eapply findPlaylist_replace|].
  split; [apply lookup_insert_eq|done].
Qed.

Lemma add_appends_at_the_end_witness :
  let sonata := SheetMusic.mk "file-1000-0.5" "Sonata" ["page1"] in
  let practice := Playlist.mk "pl-2000" "Practice" ["file-1-0.1"] in
  let w :=
    mkWorld (mkApp viewerView (Some sonata) [sonata] [practice] true false "")
      (DB.mk {[ "file-1000-0.5" := sonata ]} {[ "pl-2000" := practice ]}) in
  findPlaylist "pl-2000" (playlists (app (exec (handleAddToPlaylist "pl-2000") w)))
  = Some (Playlist.mk "pl-2000" "Practice" ["file-1-0.1"; "file-1000-0.5"]).
Proof.
  intros sonata practice w.
  destruct (add_appends_at_the_end w "pl-2000" sonata practice) as (Hfind & _).
  - reflexivity.
  - reflexivity.
  - intros Hin. apply list_elem_of_singleton in Hin. discriminate.
  - exact Hfind.
Defined.

(** X13.  Adding to a playlist touches the playlists of that id only: the
    library, cached and stored, the open item and the screen are as
    before, the cached playlists of other ids are as before and in their
    order, and so are the store records under other keys. *)
Theorem add_touches_one_playlist (w : World) (playlistId : string) :
  let w' := exec (handleAddToPlaylist playlistId) w in
  allMusic (app w') = allMusic (app w) ∧
  DB.sheetMusic (idb w') = DB.sheetMusic (idb w) ∧
  currentFile (app w') = currentFile (app w) ∧
  view (app w') = view (app w) ∧
  filter (λ p, Playlist.id p ≠ playlistId) (playlists (app w'))
    = filter (λ p, Playlist.id p ≠ playlistId) (playlists (app w)) ∧
  Playlist.id <$> playlists (app w') = Playlist.id <$> playlists (app w) ∧
  ∀ k, k ≠ playlistId →
       DB.playlists (idb w') !! k = DB.playlists (idb w) !! k.
Proof.
  cbn zeta.
  destruct (currentFile (app w)) as [file|] eqn:Hfile;
    [|by rewrite (addToPlaylist_needs_file w playlistId Hfile)].
  destruct (findPlaylist playlistId (playlists (app w))) as [pl|] eqn:Hfind.
  2:{ unfold exec, handleAddToPlaylist. run_handler.
      by rewrite Hfile, Hfind. }
  pose proof (findPlaylist_Some _ _ _ Hfind) as [_ Hid].
  destruct (decide (SheetMusic.id file ∈ Playlist.itemIds pl)) as [Hin|Hnotin].
  - unfold exec. by rewrite (addToPlaylist_present w playlistId file pl).
  - unfold exec. rewrite (addToPlaylist_fresh w playlistId file pl) by done.
    cbn [fst snd app idb view currentFile allMusic playlists
         DB.playlists DB.sheetMusic].
    repeat split; try done.
    + by apply replacePlaylist_others.
    + by apply replacePlaylist_ids.
    + intros k Hk. by rewrite lookup_insert_ne.
Qed.

Lemma filter_snoc_absent (x : string) (l : list string) :
  x ∉ l → filter (λ y, y ≠ x) (l ++ [x]) = l.
Proof.
  intros Hnotin. rewrite filter_app, filter_absent by done.
  rewrite filter_cons_False by (intros Hne; by apply Hne).
  by rewrite filter_nil, app_nil_r.
Qed.

(** X14.  Adding the open item to a playlist that did not list it and
    removing it again gives back the playlists, cached and stored, as they
    were (in a state whose cached playlists have distinct ids and mirror
    the store); all that is left of the two steps is the closed modal. *)
Theorem add_then_remove (w : World) (playlistId : string)
    (file : SheetMusic.t) (pl : Playlist.t) :
  currentFile (app w) = Some file →
  findPlaylist playlistId (playlists (app w)) = Some pl →
  SheetMusic.id file ∉ Playlist.itemIds pl →
  uniquePlaylistIds w → mirrored w →
  exec (handleRemoveFromPlaylist playlistId (SheetMusic.id file))
    (exec (handleAddToPlaylist playlistId) w)
  = mkWorld
      (mkApp (view (app w)) (currentFile (app w)) (allMusic (app w))
         (playlists (app w)) false (isLoading (app w))
         (loadingMessage (app w)))
      (idb w).
Proof.
  intros Hfile Hfind Hnotin Hunique Hmirror.
  pose proof (findPlaylist_Some _ _ _ Hfind) as [Hin Hid].
  unfold exec at 2. rewrite (addToPlaylist_fresh w playlistId file pl) by done.
  cbn [fst snd]. set (updated := Playlist.mk _ _ (_ ++ _)).
  unfold exec.
  erewrite removeFromPlaylist_present
    by (cbn [app playlists]; by eapply findPlaylist_replace).
  subst updated.
  cbn [fst snd app idb view currentFile allMusic playlists isModalOpen
       isLoading loadingMessage DB.sheetMusic DB.playlists
       Playlist.id Playlist.name Playlist.itemIds].
  rewrite filter_snoc_absent by done.
  assert (Playlist.mk (Playlist.id pl) (Playlist.name pl) (Playlist.itemIds pl)
          = pl) as -> by by destruct pl.
  rewrite replacePlaylist_twice, replacePlaylist_unique by done.
  rewrite insert_insert_eq, <- Hid, insert_id by by apply Hmirror.
  by destruct (idb w).
Qed.

Lemma add_then_remove_witness :
  let sonata := SheetMusic.mk "file-1000-0.5" "Sonata" ["page1"] in
  let practice := Playlist.mk "pl-2000" "Practice" [] in
  let w :=
    mkWorld (mkApp viewerView (Some sonata) [sonata] [practice] false false "")
      (DB.mk {[ "file-1000-0.5" := sonata ]} {[ "pl-2000" := practice ]}) in
  exec (handleRemoveFromPlaylist "pl-2000" "file-1000-0.5")
    (exec (handleAddToPlaylist "pl-2000") w)
  = w.
Proof.
  intros sonata practice w.
  apply (add_then_remove w "pl-2000" sonata practice).
  - reflexivity.
  - reflexivity.
  - apply not_elem_of_nil.
  - apply NoDup_singleton.
  - intros pl Hin. apply list_elem_of_singleton in Hin. subst pl. reflexivity.
Defined.

(** ** Hydration *)

Lemma lookupById_is_Some (items : list SheetMusic.t) (id : string) :
  is_Some (lookupById items id) ↔ id ∈ SheetMusic.id <$> items.
Proof.
  rewrite <- not_eq_None_Some, lookupById_None, list_elem_of_fmap. split.
  - intros Hex. destruct (decide (id ∈ SheetMusic.id <$> items)) as [Hin|Hnotin].
    + by apply list_elem_of_fmap in Hin.
    + exfalso. apply Hex. intros m Hm Hid. apply Hnotin, list_elem_of_fmap.
      by exists m.
  - intros (m & -> & Hm) Hall. by apply (Hall m).
Qed.

Lemma omap_lookup_ids (items : list SheetMusic.t) (ids : list string) :
  SheetMusic.id <$> omap (lookupById items) ids
  = filter (λ id, id ∈ SheetMusic.id <$> items) ids.
Proof.
  induction ids as [|id ids IH]; [done|].
  rewrite filter_cons. csimpl.
  destruct (lookupById items id) as [m|] eqn:E.
  - rewrite decide_True by (apply lookupById_is_Some; rewrite E; by eexists).
    csimpl. apply lookupById_Some in E as [-> _]. by rewrite IH.
  - rewrite decide_False; [done|].
    intros Hin%lookupById_is_Some. rewrite E in Hin. by destruct Hin.
Qed.

Lemma filter_all {A} (P : A → Prop) `{!∀ x, Decision (P x)} (l : list A) :
  Forall P l → filter P l = l.
Proof.
  induction 1 as [|x l Hx Hl IH]; [done|].
  rewrite filter_cons_True by done. by f_equal.
Qed.

Lemma hydrate_ids (playlists : list Playlist.t) (items : list SheetMusic.t) :
  (λ hp, SheetMusic.id <$> HydratedPlaylist.items hp)
    <$> hydrate playlists items
  = (λ pl, filter (λ id, id ∈ SheetMusic.id <$> items) (Playlist.itemIds pl))
    <$> playlists.
Proof.
  unfold hydrate. rewrite <- list_fmap_compose.
  apply list_fmap_ext. intros _ pl _. cbn.
  rewrite <- omap_lookup_ids. f_equal.
  apply list_omap_ext, Forall_Forall2_diag, Forall_forall.
  intros id _. apply musicMap_lookup.
Qed.

(** X15.  The items a hydrated playlist shows are, by id and in order, the
    members of the playlist that the library knows: ids without an item
    are dropped, every other id is resolved, repetitions included.  So a
    playlist all of whose members are in the library shows exactly its
    members. *)
Theorem hydrate_resolves_known_ids (playlists : list Playlist.t)
    (items : list SheetMusic.t) :
  (λ hp, SheetMusic.id <$> HydratedPlaylist.items hp)
    <$> hydrate playlists items
  = (λ pl, filter (λ id, id ∈ SheetMusic.id <$> items) (Playlist.itemIds pl))
    <$> playlists ∧
  ((∀ pl id, pl ∈ playlists → id ∈ Playlist.itemIds pl →
             id ∈ SheetMusic.id <$> items) →
   (λ hp, SheetMusic.id <$> HydratedPlaylist.items hp)
     <$> hydrate playlists items
   = Playlist.itemIds <$> playlists).
Proof.
  split; [apply hydrate_ids|].
  intros Hknown. rewrite hydrate_ids. apply list_fmap_ext.
  intros i pl Hi. apply list_elem_of_lookup_2 in Hi.
  apply filter_all, Forall_forall. intros id Hid. by apply (Hknown pl).
Qed.

Lemma hydrate_resolves_known_ids_witness :
  let sonata := SheetMusic.mk "file-1000-0.5" "Sonata" ["page1"] in
  let practice := Playlist.mk "pl-2000" "Practice" ["file-1000-0.5"] in
  (λ hp, SheetMusic.id <$> HydratedPlaylist.items hp)
    <$> hydrate [practice] [sonata]
  = [["file-1000-0.5"]].
Proof.
  intros sonata practice.
  destruct (hydrate_resolves_known_ids [practice] [sonata]) as [_ Hall].
  apply Hall. intros pl id Hpl Hid.
  apply list_elem_of_singleton in Hpl. subst pl.
  apply list_elem_of_singleton in Hid. subst id.
  apply list_elem_of_singleton. reflexivity.
Defined.

(** ** The store *)

Lemma getAll_length {V} (store : gmap string V) :
  length (DB.getAll store) = size store.
Proof.
  unfold DB.getAll.
  by rewrite length_fmap, merge_sort_Permutation, length_map_to_list.
Qed.

(** X16.  Saving a playlist is an upsert.  Afterwards the listing holds the
    saved record and the records stored under other ids, and nothing else;
    it is one longer when the id is new and as long as before when a
    record of that id is replaced; the item store is not touched. *)
Theorem savePlaylist_upserts (db : DB.t) (playlist : Playlist.t) :
  let db' := DB.savePlaylist playlist db in
  (∀ q, q ∈ DB.getAllPlaylists db' ↔
        q = playlist ∨
        ∃ k, k ≠ Playlist.id playlist ∧ DB.playlists db !! k = Some q) ∧
  length (DB.getAllPlaylists db')
    = match DB.playlists db !! Playlist.id playlist with
      | Some _ => length (DB.getAllPlaylists db)
      | None => S (length (DB.getAllPlaylists db))
      end ∧
  DB.getAllSheetMusic db' = DB.getAllSheetMusic db.
Proof.
  cbn zeta. unfold DB.getAllPlaylists, DB.savePlaylist. cbn [DB.playlists].
  split; [|split; [|done]].
  - intros q. rewrite getAll_elem_of. split.
    + intros [k Hk]. rewrite lookup_insert in Hk.
      case_decide; [left; congruence|right; by exists k].
    + intros [->|(k & Hne & Hk)].
      * eexists. apply lookup_insert_eq.
      * exists k. by rewrite lookup_insert_ne.
  - rewrite !getAll_length, map_size_insert.
    by destruct (DB.playlists db !! Playlist.id playlist).
Qed.

(** X17.  Deleting an item from the store removes the record under that id
    and nothing else: the listing keeps exactly the records under other
    ids, the playlist store is not touched (no playlist loses a member
    id), a missing id changes nothing, and deleting an item just saved
    under a free id gives back the store. *)
Theorem deleteSheetMusic_removes_one_record (db : DB.t) (id : string) :
  let db' := DB.deleteSheetMusic id db in
  (∀ m, m ∈ DB.getAllSheetMusic db' ↔
        ∃ k, k ≠ id ∧ DB.sheetMusic db !! k = Some m) ∧
  DB.playlists db' = DB.playlists db ∧
  (DB.sheetMusic db !! id = None → db' = db) ∧
  (∀ music, SheetMusic.id music = id → DB.sheetMusic db !! id = None →
            DB.deleteSheetMusic id (DB.saveSheetMusic music db) = db).
Proof.
  cbn zeta. unfold DB.getAllSheetMusic, DB.deleteSheetMusic, DB.saveSheetMusic.
  cbn [DB.sheetMusic DB.playlists].
  split; [|split; [done|split]].
  - intros m. rewrite getAll_elem_of. split.
    + intros [k Hk]. apply lookup_delete_Some in Hk as [Hne Hk]. by exists k.
    + intros (k & Hne & Hk). exists k. by rewrite lookup_delete_ne.
  - intros Hnone. rewrite delete_id by done. by destruct db.
  - intros music <- Hnone. rewrite delete_insert_eq, delete_id by done.
    by destruct db.
Qed.

Lemma deleteSheetMusic_removes_one_record_witness :
  let sonata := SheetMusic.mk "file-1000-0.5" "Sonata" ["page1"] in
  DB.deleteSheetMusic "file-1000-0.5" (DB.saveSheetMusic sonata DB.empty)
  = DB.empty.
Proof.
  intros sonata.
  destruct (deleteSheetMusic_removes_one_record DB.empty "file-1000-0.5")
    as (_ & _ & _ & Hundo).
  apply (Hundo sonata); reflexivity.
Defined.

Lemma lookupById_getAll (store : gmap string SheetMusic.t) (id : string) :
  (∀ k m, store !! k = Some m → SheetMusic.id m = k) →
  lookupById (DB.getAll store) id = store !! id.
Proof.
  intros Hkeyed. destruct (store !! id) as [m|] eqn:E.
  - destruct (lookupById (DB.getAll store) id) as [m'|] eqn:E'.
    + apply lookupById_Some in E' as [Hid [k Hk]%getAll_elem_of].
      rewrite (Hkeyed k m' Hk) in Hid. subst k. congruence.
    + exfalso. eapply lookupById_None; [exact E'| |exact (Hkeyed id m E)].
      apply getAll_elem_of. by exists id.
  - apply lookupById_None. intros m [k Hk]%getAll_elem_of Hid.
    rewrite (Hkeyed k m Hk) in Hid. subst k. congruence.
Qed.

Lemma hydrate_getAll (store : gmap string SheetMusic.t)
    (pls : list Playlist.t) :
  (∀ k m, store !! k = Some m → SheetMusic.id m = k) →
  hydrate pls (DB.getAll store)
  = (λ pl, HydratedPlaylist.mk (Playlist.id pl) (Playlist.name pl)
             (omap (λ id, store !! id) (Playlist.itemIds pl))) <$> pls.
Proof.
  intros Hkeyed. unfold hydrate. apply list_fmap_ext. intros _ pl _.
  f_equal. apply list_omap_ext, Forall_Forall2_diag, Forall_forall.
  intros id _. rewrite musicMap_lookup. by apply lookupById_getAll.
Qed.

Lemma omap_delete (store : gmap string SheetMusic.t) (id : string)
    (ids : list string) :
  (∀ k m, store !! k = Some m → SheetMusic.id m = k) →
  omap (λ i, delete id store !! i) ids
  = filter (λ m, SheetMusic.id m ≠ id) (omap (λ i, store !! i) ids).
Proof.
  intros Hkeyed. induction ids as [|i ids IH]; [done|]. csimpl.
  rewrite lookup_delete. case_decide as Hi.
  - subst i. destruct (store !! id) as [m|] eqn:E; csimpl; [|done].
    rewrite filter_cons_False; [done|].
    intros Hne. apply Hne. by apply Hkeyed.
  - destruct (store !! i) as [m|] eqn:E; csimpl; [|done].
    rewrite filter_cons_True by (by rewrite (Hkeyed i m E)).
    by rewrite IH.
Qed.

(** X18.  Deleting an item from the store does not cascade: after the next
    load the playlists are what they would have been, member ids
    included, and every hydrated playlist keeps its id and name and shows
    the items it would have shown, in their order, without the item of
    the deleted id. *)
Theorem deleted_item_drops_out_of_hydration (w : World) (id : string) :
  itemsKeyedById w →
  let kept := mount w in
  let gone := mount (mkWorld (app w) (DB.deleteSheetMusic id (idb w))) in
  playlists (app gone) = playlists (app kept) ∧
  hydratedPlaylists (app gone)
  = (λ hp, HydratedPlaylist.mk (HydratedPlaylist.id hp)
             (HydratedPlaylist.name hp)
             (filter (λ m, SheetMusic.id m ≠ id) (HydratedPlaylist.items hp)))
    <$> hydratedPlaylists (app kept).
Proof.
  intros Hkeyed kept gone. split; [done|].
  unfold hydratedPlaylists.
  change (playlists (app gone)) with (playlists (app kept)).
  change (allMusic (app gone))
    with (DB.getAll (delete id (DB.sheetMusic (idb w)))).
  change (allMusic (app kept)) with (DB.getAll (DB.sheetMusic (idb w))).
  rewrite !hydrate_getAll; [|done|].
  - rewrite <- list_fmap_compose. apply list_fmap_ext. intros _ pl _. cbn.
    f_equal. by apply omap_delete.
  - intros k m [_ Hk]%lookup_delete_Some. by apply Hkeyed.
Qed.

Lemma deleted_item_drops_out_of_hydration_witness :
  let sonata := SheetMusic.mk "file-1000-0.5" "Sonata" ["page1"] in
  let etude := SheetMusic.mk "file-1500-0.7" "Etude" ["page1"] in
  let practice :=
    Playlist.mk "pl-2000" "Practice" ["file-1000-0.5"; "file-1500-0.7"] in
  let w :=
    mkWorld initialApp
      (DB.mk {[ "file-1000-0.5" := sonata; "file-1500-0.7" := etude ]}
         {[ "pl-2000" := practice ]}) in
  let gone :=
    mount (mkWorld (app w) (DB.deleteSheetMusic "file-1000-0.5" (idb w))) in
  itemsKeyedById w ∧
  playlists (app gone) = [practice] ∧
  hydratedPlaylists (app gone)
  = [HydratedPlaylist.mk "pl-2000" "Practice" [etude]].
Proof.
  intros sonata etude practice w gone.
  assert (Hkeyed : itemsKeyedById w).
  { intros k m Hk. cbn in Hk.
    apply lookup_insert_Some in Hk as [[<- <-]|[_ Hk]]; [done|].
    apply lookup_singleton_Some in Hk as [<- <-]. done. }
  split; [exact Hkeyed|].
  destruct (deleted_item_drops_out_of_hydration w "file-1000-0.5" Hkeyed)
    as [Hpls Hhydrated].
  split.
  - etransitivity; [exact Hpls|]. reflexivity.
  - etransitivity; [exact Hhydrated|]. reflexivity.
Defined.

(** ** The playlist list of the view *)

(** X19.  Expanding or collapsing a playlist flips that playlist only, and
    doing it twice gives back the view state. *)
Theorem togglePlaylist_flips_one (st : PlaylistView.state) (id : string) :
  let st' := PlaylistView.togglePlaylist id st in
  (id ∈ PlaylistView.expandedPlaylists st'
   ↔ id ∉ PlaylistView.expandedPlaylists st) ∧
  (∀ other, other ≠ id →
     (other ∈ PlaylistView.expandedPlaylists st'
      ↔ other ∈ PlaylistView.expandedPlaylists st)) ∧
  PlaylistView.newPlaylistName st' = PlaylistView.newPlaylistName st ∧
  PlaylistView.togglePlaylist id st' = st.
Proof.
  destruct st as [name expanded]. unfold PlaylistView.togglePlaylist. cbn.
  destruct (decide (id ∈ expanded)) as [Hin|Hnotin].
  - rewrite (bool_decide_eq_true_2 _ Hin).
    rewrite bool_decide_eq_false_2 by set_solver.
    repeat split; try set_solver.
    f_equal. apply set_eq. intros x. destruct (decide (x = id)); set_solver.
  - rewrite (bool_decide_eq_false_2 _ Hnotin).
    rewrite bool_decide_eq_true_2 by set_solver.
    repeat split; try set_solver.
    f_equal. apply set_eq. intros x. destruct (decide (x = id)); set_solver.
Qed.

(** ** The viewer *)

Lemma changeSpeed_range (delta : Z) (st : Viewer.state) :
  (1 ≤ Viewer.scrollSpeed (Viewer.changeSpeed delta st) ≤ 10)%Z.
Proof. cbn. lia. Qed.

(** X20.  Whatever the user does in the viewer, the scroll speed stays
    between 1 and 10; at the lower end the slower button, and at the upper
    end the faster button, changes nothing. *)
Theorem scrollSpeed_stays_in_range (actions : list Viewer.Action) :
  let st := Viewer.run Viewer.initial actions in
  (1 ≤ Viewer.scrollSpeed st ≤ 10)%Z ∧
  (Viewer.scrollSpeed st = 1%Z → Viewer.step st Viewer.Slower = st) ∧
  (Viewer.scrollSpeed st = 10%Z → Viewer.step st Viewer.Faster = st).
Proof.
  cbn zeta. split.
  - unfold Viewer.run.
    induction actions as [|a actions IH] using rev_ind; [done|].
    rewrite foldl_app. cbn [foldl].
    destruct a; cbn [Viewer.step]; try exact IH; apply changeSpeed_range.
  - destruct (Viewer.run Viewer.initial actions) as [s b v t]. cbn.
    split; intros ->; done.
Qed.

Lemma scrollSpeed_stays_in_range_witness :
  let st := Viewer.run Viewer.initial
              [Viewer.Slower; Viewer.Slower; Viewer.Slower] in
  Viewer.scrollSpeed st = 1%Z ∧ Viewer.step st Viewer.Slower = st.
Proof.
  intros st. split; [reflexivity|].
  destruct (scrollSpeed_stays_in_range
              [Viewer.Slower; Viewer.Slower; Viewer.Slower]) as (_ & Hlow & _).
  apply Hlow. reflexivity.
Defined.

(** X21.  The faster button followed by the slower button gives back the
    viewer state, as long as the speed was below 10 (and the other way
    round above 1). *)
Theorem faster_then_slower (st : Viewer.state) :
  (1 ≤ Viewer.scrollSpeed st)%Z →
  ((Viewer.scrollSpeed st < 10)%Z →
   Viewer.changeSpeed (-1) (Viewer.changeSpeed 1 st) = st) ∧
  ((1 < Viewer.scrollSpeed st ≤ 10)%Z →
   Viewer.changeSpeed 1 (Viewer.changeSpeed (-1) st) = st).
Proof.
  destruct st as [s b v t]. unfold Viewer.changeSpeed. cbn.
  intros Hlow. split; intros Hhigh; f_equal; lia.
Qed.

Lemma faster_then_slower_witness :
  Viewer.changeSpeed (-1) (Viewer.changeSpeed 1 Viewer.initial)
  = Viewer.initial.
Proof.
  destruct (faster_then_slower Viewer.initial) as [Hup _].
  - cbn. lia.
  - apply Hup. cbn. lia.
Defined.

Lemma scaleInRange_const (q : Q) (k : Z) (b : bool) (v t : Z) :
  (q == k # 4)%Q → (2 ≤ k ≤ 12)%Z → scaleInRange (Viewer.mk q b v t).
Proof.
  intros Hq Hk. unfold scaleInRange. cbn. rewrite Hq. split; [|split].
  - unfold Qle. cbn. lia.
  - unfold Qle. cbn. lia.
  - by exists k.
Qed.

Lemma zoom_in_range (up : bool) (st : Viewer.state) :
  scaleInRange st →
  scaleInRange (Viewer.zoom (if up then 1 # 4 else - (1 # 4)) st).
Proof.
  intros (Hlow & Hhigh & k & Hk). unfold scaleInRange, Viewer.zoom. cbn.
  split; [apply Q.le_max_l|]. split.
  - apply Q.max_lub; [done|apply Q.le_min_l].
  - set (d := if up then 1 # 4 else - (1 # 4)).
    assert (Hsum : ∃ k' : Z, (Viewer.scale st + d == k' # 4)%Q).
    { exists (if up then k + 1 else k - 1)%Z. rewrite Hk.
      destruct up; unfold d, Qeq; cbn; lia. }
    destruct Hsum as [k' Hk'].
    destruct (Q.max_spec (1 # 2) (Qmin 3 (Viewer.scale st + d)))
      as [[_ Emax]|[_ Emax]].
    + destruct (Q.min_spec 3 (Viewer.scale st + d)) as [[_ Emin]|[_ Emin]].
      * exists 12%Z. by rewrite Emax, Emin.
      * exists k'. by rewrite Emax, Emin.
    + exists 2%Z. by rewrite Emax.
Qed.

Lemma step_scaleInRange (st : Viewer.state) (a : Viewer.Action) :
  scaleInRange st → scaleInRange (Viewer.step st a).
Proof.
  intros Hst. destruct a; cbn [Viewer.step]; try exact Hst.
  - exact (zoom_in_range false st Hst).
  - exact (zoom_in_range true st Hst).
  - unfold Viewer.handleDoubleClick.
    destruct (Viewer.gt _ _);
      [apply (scaleInRange_const _ 4)|apply (scaleInRange_const _ 8)];
      done || lia.
  - unfold Viewer.handleTouchEnd.
    destruct (_ && _); [|exact Hst].
    destruct (Viewer.gt _ _);
      [apply (scaleInRange_const _ 4)|apply (scaleInRange_const _ 10)];
      done || lia.
Qed.

(** X22.  Whatever the user does in the viewer (zoom buttons, double
    click, double tap), the zoom factor stays a multiple of 1/4 between 1/2
    and 3. *)
Theorem scale_stays_in_range (actions : list Viewer.Action) :
  scaleInRange (Viewer.run Viewer.initial actions).
Proof.
  unfold Viewer.run.
  induction actions as [|a actions IH] using rev_ind.
  - apply (scaleInRange_const _ 4); done || lia.
  - rewrite foldl_app. by apply step_scaleInRange.
Qed.

Lemma gt_spec (a b : Q) : Viewer.gt a b = true ↔ (b < a)%Q.
Proof.
  unfold Viewer.gt. rewrite negb_true_iff, <- not_true_iff_false, Qle_bool_iff.
  split; [apply Qnot_le_lt|apply Qlt_not_le].
Qed.

Lemma gt_spec_false (a b : Q) : Viewer.gt a b = false ↔ (a <= b)%Q.
Proof.
  unfold Viewer.gt. by rewrite negb_false_iff, Qle_bool_iff.
Qed.

(** X23.  Taps that come 300 ms or more after the one before never change
    the zoom; each of them is remembered as the last tap.  So is a tap
    whose clock reading is not after the one before.  A tap that comes
    less than 300 ms (and more than 0 ms) after the one before is
    remembered too and switches the zoom: to 1 when it was above 1, to
    5/2 when it was 1 or below; a second such tap switches it back from
    5/2 to 1, or on from 1 to 5/2. *)
Theorem taps_zoom_only_when_quick (st : Viewer.state) :
  (∀ times, slowTaps (Viewer.lastTap st) times →
     Viewer.scale (Viewer.run st (Viewer.TouchEnd <$> times))
       = Viewer.scale st ∧
     Viewer.lastTap (Viewer.run st (Viewer.TouchEnd <$> times))
       = default (Viewer.lastTap st) (last times)) ∧
  (∀ t, (t ≤ Viewer.lastTap st)%Z →
     Viewer.handleTouchEnd t st
     = Viewer.mk (Viewer.scale st) (Viewer.isAutoScrolling st)
         (Viewer.scrollSpeed st) t) ∧
  (∀ t, (Viewer.lastTap st < t < Viewer.lastTap st + 300)%Z →
     ((1 < Viewer.scale st)%Q →
      Viewer.handleTouchEnd t st
      = Viewer.mk 1%Q (Viewer.isAutoScrolling st) (Viewer.scrollSpeed st) t) ∧
     ((Viewer.scale st <= 1)%Q →
      Viewer.handleTouchEnd t st
      = Viewer.mk (5 # 2)%Q (Viewer.isAutoScrolling st)
          (Viewer.scrollSpeed st) t) ∧
     ∀ t', (t < t' < t + 300)%Z →
       ((1 < Viewer.scale st)%Q →
        Viewer.scale (Viewer.run st [Viewer.TouchEnd t; Viewer.TouchEnd t'])
        = (5 # 2)%Q) ∧
       ((Viewer.scale st <= 1)%Q →
        Viewer.scale (Viewer.run st [Viewer.TouchEnd t; Viewer.TouchEnd t'])
        = 1%Q)).
Proof.
  assert (Hquick : ∀ st' t,
    (Viewer.lastTap st' < t < Viewer.lastTap st' + 300)%Z →
    Viewer.handleTouchEnd t st'
    = Viewer.mk (if Viewer.gt (Viewer.scale st') 1 then 1 else 5 # 2)%Q
        (Viewer.isAutoScrolling st') (Viewer.scrollSpeed st') t).
  { intros st' t Ht. unfold Viewer.handleTouchEnd. cbn zeta.
    by rewrite (proj2 (Z.ltb_lt _ _)), (proj2 (Z.ltb_lt _ _)) by lia. }
  split; [|split].
  - intros times. revert st.
    induction times as [|t times IH]; intros st Hslow; [done|].
    destruct Hslow as [Ht Hslow].
    unfold Viewer.run in *. cbn [fmap list_fmap foldl Viewer.step].
    specialize (IH (Viewer.handleTouchEnd t st) Hslow) as [IHs IHt].
    rewrite IHs, IHt. split.
    + cbn. rewrite (proj2 (Z.ltb_ge _ _)) by lia. done.
    + cbn [Viewer.handleTouchEnd Viewer.lastTap]. rewrite last_cons.
      by destruct (last times).
  - intros t Ht. unfold Viewer.handleTouchEnd. cbn zeta.
    rewrite (proj2 (Z.ltb_ge 0 _)) by lia. by rewrite andb_false_r.
  - intros t Ht. split; [|split].
    + intros Habove%gt_spec. by rewrite (Hquick st t Ht), Habove.
    + intros Hbelow%gt_spec_false. by rewrite (Hquick st t Ht), Hbelow.
    + intros t' Ht'. unfold Viewer.run. cbn [foldl Viewer.step].
      rewrite (Hquick st t Ht), Hquick by (cbn; lia).
      cbn [Viewer.scale].
      split.
      * intros Habove%gt_spec. by rewrite Habove.
      * intros Hbelow%gt_spec_false. by rewrite Hbelow.
Qed.

Lemma taps_zoom_only_when_quick_witness :
  let tapped := Viewer.run Viewer.initial [Viewer.TouchEnd 1000] in
  slowTaps 0 [1000]%Z ∧
  Viewer.scale tapped = 1%Q ∧
  (Viewer.lastTap tapped < 1200 < Viewer.lastTap tapped + 300)%Z ∧
  (Viewer.scale tapped <= 1)%Q ∧
  Viewer.handleTouchEnd 1200 tapped = Viewer.mk (5 # 2)%Q false 2 1200 ∧
  Viewer.scale
    (Viewer.run tapped [Viewer.TouchEnd 1200; Viewer.TouchEnd 1350])
  = 1%Q.
Proof.
  intros tapped.
  assert (Hslow : slowTaps 0 [1000]%Z) by (cbn; lia).
  assert (Ht : (Viewer.lastTap tapped < 1200 < Viewer.lastTap tapped + 300)%Z)
    by (cbn; lia).
  assert (Hbelow : (Viewer.scale tapped <= 1)%Q) by (by vm_compute).
  destruct (taps_zoom_only_when_quick Viewer.initial) as (Hkeep & _ & _).
  destruct (Hkeep [1000]%Z Hslow) as [Hscale _].
  destruct (taps_zoom_only_when_quick tapped) as (_ & _ & Hquick).
  destruct (Hquick 1200%Z Ht) as (_ & Hzoom & Htwice).
  destruct (Htwice 1350%Z ltac:(lia)) as [_ Hback].
  split; [exact Hslow|]. split; [exact Hscale|]. split; [exact Ht|].
  split; [exact Hbelow|].
  split; [exact (Hzoom Hbelow)|exact (Hback Hbelow)].
Defined.

(** ** The service worker *)

Lemma activate_lookup (caches : gmap string (gmap string SW.Response))
    (name : string) :
  SW.activate caches !! name
  = if decide (name = SW.CACHE_NAME) then caches !! name else None.
Proof.
  unfold SW.activate. case_decide as Hname.
  - apply lookup_foldr_delete_not_elem_of.
    intros [Hne _]%list_elem_of_filter. done.
  - destruct (caches !! name) as [c|] eqn:E.
    + apply lookup_foldr_delete, list_elem_of_filter. split; [done|].
      unfold SW.keys. apply list_elem_of_fmap. exists (name, c).
      split; [done|]. by apply elem_of_map_to_list.
    + rewrite lookup_foldr_delete_not_elem_of; [done|].
      intros [_ Hin]%list_elem_of_filter. unfold SW.keys in Hin.
      apply list_elem_of_fmap in Hin as ([k c] & -> & Hin).
      apply elem_of_map_to_list in Hin. cbn in E. congruence.
Qed.

(** X24.  Activation keeps the current cache, with its content, and
    deletes every other cache; activating again changes nothing. *)
Theorem activate_keeps_current_cache
    (caches : gmap string (gmap string SW.Response)) :
  (∀ name, SW.activate caches !! name
           = if decide (name = SW.CACHE_NAME) then caches !! name else None) ∧
  (∀ u, SW.cached (SW.activate caches) u = SW.cached caches u) ∧
  SW.activate (SW.activate caches) = SW.activate caches.
Proof.
  split; [apply activate_lookup|]. split.
  - intros u. unfold SW.cached. by rewrite activate_lookup, decide_True.
  - apply map_eq. intros name. rewrite !activate_lookup. by case_decide.
Qed.

(** X25.  A fetch stores nothing but a response of status 200 to a GET
    request, under the URL of that request in the current cache: the other
    caches and the entries of other URLs are as before, and the entry of
    the URL changes only in that case, to the response of the network. *)
Theorem fetch_stores_only_successful_gets
    (network : SW.Request → option SW.Response) (request : SW.Request)
    (caches : gmap string (gmap string SW.Response)) :
  let caches' := (SW.onFetch network request caches).2 in
  (∀ name, name ≠ SW.CACHE_NAME → caches' !! name = caches !! name) ∧
  (∀ u, u ≠ SW.url request → SW.cached caches' u = SW.cached caches u) ∧
  SW.cached caches' (SW.url request)
  = match network request with
    | Some r =>
        if bool_decide (SW.method request = "GET" ∧ SW.status r = 200%Z)
        then Some r else SW.cached caches (SW.url request)
    | None => SW.cached caches (SW.url request)
    end.
Proof.
  cbn zeta. unfold SW.onFetch, SW.cached.
  destruct (decide (SW.method request = "GET")) as [Hget|Hother].
  - rewrite bool_decide_eq_false_2 by (intros Hne; by apply Hne).
    cbn [snd]. split; [|split].
    + intros name Hname. by rewrite lookup_insert_ne.
    + intros u Hu. rewrite lookup_insert_eq. cbn.
      destruct (network request) as [r|]; [|done].
      case_bool_decide; [|done]. by rewrite lookup_insert_ne.
    + rewrite lookup_insert_eq. cbn.
      destruct (network request) as [r|]; [|done].
      destruct (decide (SW.status r = 200%Z)) as [Hok|Hbad].
      * rewrite !bool_decide_eq_true_2 by done. apply lookup_insert_eq.
      * rewrite !bool_decide_eq_false_2 by tauto. done.
  - rewrite bool_decide_eq_true_2 by done. cbn [snd].
    split; [done|]. split; [done|].
    destruct (network request) as [r|]; [|done].
    by rewrite bool_decide_eq_false_2 by tauto.
Qed.

Lemma step_keeps_cached (caches : gmap string (gmap string SW.Response))
    (e : SW.Event) (u : string) :
  is_Some (SW.cached caches u) → is_Some (SW.cached (SW.step caches e) u).
Proof.
  intros Hcached. destruct e as [|network request]; cbn [SW.step].
  - unfold SW.cached. by rewrite activate_lookup, decide_True.
  - unfold SW.onFetch, SW.cached in *. case_bool_decide; [done|].
    cbn [snd]. rewrite lookup_insert_eq. cbn.
    destruct (network request) as [r|]; [|done].
    case_bool_decide; [|done]. rewrite lookup_insert.
    by case_decide.
Qed.

(** X26.  What the current cache holds for a URL is never lost: through
    any sequence of activations and fetches the URL keeps a response, so a
    GET request for it is answered from the cache whatever the network
    does, also when it fails. *)
Theorem cached_url_stays_answerable
    (caches : gmap string (gmap string SW.Response)) (events : list SW.Event)
    (u : string) :
  is_Some (SW.cached caches u) →
  ∃ r, SW.cached (SW.run caches events) u = Some r ∧
       ∀ network,
         (SW.onFetch network (SW.mkRequest "GET" u) (SW.run caches events)).1
         = Some (Some r).
Proof.
  intros Hcached.
  assert (Hstill : is_Some (SW.cached (SW.run caches events) u)).
  { unfold SW.run. induction events as [|e events IH] using rev_ind; [done|].
    rewrite foldl_app. by apply step_keeps_cached. }
  destruct Hstill as [r Hr]. exists r. split; [done|].
  intros network. unfold SW.onFetch. cbn.
  unfold SW.cached in Hr. by rewrite Hr.
Qed.

Lemma cached_url_stays_answerable_witness :
  let page := SW.mkResponse 200 "<html>" in
  let caches : gmap string (gmap string SW.Response) :=
    {[ SW.CACHE_NAME := {[ "/index.html" := page ]} ]} in
  let events :=
    [SW.Activate;
     SW.Fetch (λ _, Some (SW.mkResponse 404 "")) (SW.mkRequest "GET" "/index.html")] in
  ∃ r, SW.cached (SW.run caches events) "/index.html" = Some r.
Proof.
  intros page caches events.
  destruct (cached_url_stays_answerable caches events "/index.html")
    as (r & Hr & _).
  - by eexists.
  - by exists r.
Defined.

(** X27.  What was fetched once with status 200 is there offline: after a
    GET request that the network answered with status 200, the same
    request is answered with that response even when the network fails. *)
Theorem fetched_once_available_offline
    (network : SW.Request → option SW.Response) (request : SW.Request)
    (r : SW.Response) (caches : gmap string (gmap string SW.Response)) :
  SW.method request = "GET" →
  network request = Some r → SW.status r = 200%Z →
  let caches' := (SW.onFetch network request caches).2 in
  (SW.onFetch (λ _, None) request caches').1 = Some (Some r).
Proof.
  intros Hget Hnet Hok. cbn zeta. unfold SW.onFetch.
  rewrite !bool_decide_eq_false_2 by (intros Hne; by apply Hne).
  cbn [fst snd]. rewrite Hnet, bool_decide_eq_true_2 by done.
  rewrite lookup_insert_eq. cbn. by rewrite lookup_insert_eq.
Qed.

Lemma fetched_once_available_offline_witness :
  let page := SW.mkResponse 200 "<html>" in
  let request := SW.mkRequest "GET" "/index.html" in
  (SW.onFetch (λ _, None) request
     (SW.onFetch (λ _, Some page) request ∅).2).1
  = Some (Some page).
Proof.
  intros page request.
  apply (fetched_once_available_offline (λ _, Some page) request page ∅);
    reflexivity.
Defined.

(** ** Names and ids *)

(** X28.  Playlists created under different clock readings get different
    ids, so both records are kept in the store and the second does not
    replace the first. *)
Theorem playlists_of_different_times_coexist (w : World) (now1 now2 : Z)
    (name1 name2 : string) :
  now1 ≠ now2 →
  let p1 := Playlist.mk ("pl-" +:+ Number_toString now1) name1 [] in
  let p2 := Playlist.mk ("pl-" +:+ Number_toString now2) name2 [] in
  let w2 := exec (handleCreatePlaylist now2 name2)
              (exec (handleCreatePlaylist now1 name1) w) in
  Playlist.id p1 ≠ Playlist.id p2 ∧
  DB.playlists (idb w2) !! Playlist.id p1 = Some p1 ∧
  DB.playlists (idb w2) !! Playlist.id p2 = Some p2 ∧
  playlists (app w2) = playlists (app w) ++ [p1; p2].
Proof.
  intros Hnow p1 p2 w2.
  assert (Hids : Playlist.id p1 ≠ Playlist.id p2).
  { intros Heq. by apply playlist_id_inj in Heq. }
  split; [exact Hids|]. subst w2. cbn. repeat split.
  - rewrite lookup_insert_ne by (intros Heq; by apply Hids).
    apply lookup_insert_eq.
  - apply lookup_insert_eq.
  - by rewrite <- app_assoc.
Qed.

Lemma playlists_of_different_times_coexist_witness :
  let w2 := exec (handleCreatePlaylist 3000 "Recital")
              (exec (handleCreatePlaylist 2000 "Practice") firstVisit) in
  "pl-2000" ≠ "pl-3000" ∧
  DB.playlists (idb w2) !! "pl-2000" = Some (Playlist.mk "pl-2000" "Practice" []).
Proof.
  intros w2.
  destruct (playlists_of_different_times_coexist firstVisit 2000 3000
              "Practice" "Recital") as (Hids & Hfirst & _).
  - discriminate.
  - split; [exact Hids|exact Hfirst].
Defined.

(** X29.  A name made of white-space characters only (spaces, tabs, line
    breaks, no-break spaces and the other characters [trim] removes), in
    any number and order, creates no playlist: the world and the view
    state are as before and nothing is shown. *)
Theorem blank_name_creates_nothing (w : World) (st : PlaylistView.state)
    (now : Z) :
  blank (PlaylistView.newPlaylistName st) →
  PlaylistView.handleCreatePlaylist (handleCreatePlaylist now) st w
    = (inr st, w, []).
Proof.
  intros Hblank. unfold PlaylistView.handleCreatePlaylist.
  by rewrite (trim_blank _ Hblank).
Qed.

Lemma blank_name_creates_nothing_witness :
  let name := utf8 9 +:+ " " +:+ utf8 160 +:+ utf8 10 in
  blank name ∧
  PlaylistView.handleCreatePlaylist (handleCreatePlaylist 1000)
    (PlaylistView.mk name ∅) firstVisit
    = (inr (PlaylistView.mk name ∅), firstVisit, []).
Proof.
  intros name.
  assert (Hblank : blank name).
  { exists [utf8 9; " "; utf8 160; utf8 10]. split; [|reflexivity].
    repeat constructor; vm_compute; set_solver. }
  split; [exact Hblank|].
  exact (blank_name_creates_nothing firstVisit (PlaylistView.mk name ∅) 1000
           Hblank).
Defined.
